(** * Grover search circuits: a shallow embedding of [circuits/grover.py]
      and of [recommend_iterations] from [main.py]

    The Python functions build Qiskit circuits.  Circuit construction is
    embedded as functions into an error monad (Python exceptions), a circuit
    as the ordered list of instructions Qiskit records, and the meaning of a
    circuit as a map on state vectors (amplitude functions over basis-state
    indices) in Qiskit's bit order: qubit [q] is bit [q] of the index. *)

From Stdlib Require Import ZArith Zpow_facts List String Ascii Bool Lia Arith.
From Stdlib Require Import DecimalString SpecFloat.
From Stdlib Require Import Reals Lra RNsatz FunctionalExtensionality.
Import ListNotations.

Set Warnings "-register-all".

Local Open Scope string_scope.
Local Open Scope list_scope.
Local Open Scope Z_scope.

(** ** Python exceptions as an error monad

    The exception classes the program can meet.  The messages of the
    exceptions raised by [grover.py] itself are the source's; those raised
    inside Python's [format] and [math] and inside Qiskit are shortened. *)

Inductive exn : Type :=
| ValueError (msg : string)      (* Python's ValueError *)
| CircuitError (msg : string)    (* qiskit.circuit.exceptions.CircuitError *)
| OverflowError (msg : string).  (* Python's OverflowError *)

Inductive result (A : Type) : Type :=
| Ok (a : A)
| Raise (e : exn).
Arguments Ok {A} a.
Arguments Raise {A} e.

Definition bind {A B : Type} (r : result A) (k : A -> result B) : result B :=
  match r with
  | Ok a => k a
  | Raise e => Raise e
  end.

Notation "x <- c ;; k" := (bind c (fun x => k))
  (at level 61, c at next level, right associativity).

(** A loop [for a in l: st = body(a, st)] that stops at the first exception. *)
Fixpoint for_each {A S : Type} (l : list A) (body : A -> S -> result S) (st : S)
  : result S :=
  match l with
  | [] => Ok st
  | a :: l' => st' <- body a st ;; for_each l' body st'
  end.

(** [range(lo, hi)] and [enumerate] *)
Definition range (lo hi : Z) : list Z :=
  map (fun i => lo + Z.of_nat i) (seq 0 (Z.to_nat (hi - lo))).

Fixpoint enumerate_from (i : Z) (s : string) : list (Z * ascii) :=
  match s with
  | EmptyString => []
  | String c s' => (i, c) :: enumerate_from (i + 1) s'
  end.

Definition enumerate (s : string) : list (Z * ascii) := enumerate_from 0 s.

(** ** [format(index, f"0{n}b")]

    The format specification is the text [0], the decimal numeral of [n] and
    [b].  A negative [n] puts a minus sign where a width is expected and
    Python rejects the specification.  Otherwise the result is the sign of
    [index], then zeros, then the binary digits of [|index|] without leading
    zeros, the zeros filling the text up to [n] characters.

    Integers are Python's unbounded integers, and the limits of the machine
    are left out: CPython reads the width into a machine word and refuses
    one above [PY_SSIZE_T_MAX], and it cannot build a text longer than
    memory allows.  What is stated about [index_to_bitstring] on its own is
    stated for widths up to [PY_SSIZE_T_MAX]. *)

(** The largest width [format] reads, [sys.maxsize] of a 64-bit CPython *)
Definition PY_SSIZE_T_MAX : Z := 2 ^ 63 - 1.

(** Binary digits of a positive number, most significant first, put in
    front of [acc] *)
Fixpoint bin_digits (p : positive) (acc : string) : string :=
  match p with
  | xH => String "1" acc
  | xO q => bin_digits q (String "0" acc)
  | xI q => bin_digits q (String "1" acc)
  end.

Definition bin_abs (z : Z) : string :=
  match z with
  | Z0 => "0"
  | Zpos p => bin_digits p ""
  | Zneg p => bin_digits p ""
  end.

Fixpoint zeros (k : nat) : string :=
  match k with
  | O => ""
  | S k' => String "0" (zeros k')
  end.

Definition format_0nb (index n : Z) : result string :=
  if n <? 0 then Raise (ValueError "Invalid format specifier")
  else
    let sign := if index <? 0 then "-" else "" in
    let digits := bin_abs index in
    let pad := (Z.to_nat n - String.length sign - String.length digits)%nat in
    Ok (sign ++ zeros pad ++ digits)%string.

(** [index_to_bitstring], grover.py lines 13-15 *)
Definition index_to_bitstring (index n : Z) : result string :=
  format_0nb index n.

(** ** Qiskit circuits

    An instruction is one of the gates the program appends, a measurement, or
    a composite instruction made from a whole circuit by [to_instruction]
    and placed on the qubits [qargs]. *)

Inductive instruction : Type :=
| XGate (q : nat)
| HGate (q : nat)
| ZGate (q : nat)
| MCXGate (controls : list nat) (target : nat)
| Measure (q c : nat)
| Composite (label : option string) (definition : list instruction)
            (width : nat) (qargs : list nat).

Record QuantumCircuit : Type := mkCircuit
  { num_qubits : nat;
    num_clbits : nat;
    name : option string;      (* [None]: the name Qiskit generates *)
    data : list instruction }.

(** [QuantumCircuit(nq, nc, name=...)]: a register size must not be
    negative. *)
Definition new_circuit (nq nc : Z) (nm : option string) : result QuantumCircuit :=
  if (nq <? 0) || (nc <? 0)
  then Raise (CircuitError "Register size must be non-negative")
  else Ok (mkCircuit (Z.to_nat nq) (Z.to_nat nc) nm []).

(** An integer names a bit the way it indexes a Python list: [-1] is the
    last one, and an index outside the register is refused. *)
Definition bit_index (size : nat) (i : Z) : result nat :=
  if (0 <=? i) && (i <? Z.of_nat size) then Ok (Z.to_nat i)
  else if (- Z.of_nat size <=? i) && (i <? 0) then Ok (Z.to_nat (Z.of_nat size + i))
  else Raise (CircuitError "Index out of range").

Definition push (qc : QuantumCircuit) (i : instruction) : QuantumCircuit :=
  mkCircuit (num_qubits qc) (num_clbits qc) (name qc) (data qc ++ [i]).

Definition qc_x (qc : QuantumCircuit) (i : Z) : result QuantumCircuit :=
  q <- bit_index (num_qubits qc) i ;; Ok (push qc (XGate q)).

Definition qc_h (qc : QuantumCircuit) (i : Z) : result QuantumCircuit :=
  q <- bit_index (num_qubits qc) i ;; Ok (push qc (HGate q)).

Definition qc_z (qc : QuantumCircuit) (i : Z) : result QuantumCircuit :=
  q <- bit_index (num_qubits qc) i ;; Ok (push qc (ZGate q)).

(** [qc.h(range(n))], [qc.x(range(n))]: one gate per listed qubit, in order *)
Definition qc_h_all (qc : QuantumCircuit) (qs : list Z) : result QuantumCircuit :=
  for_each qs (fun i qc' => qc_h qc' i) qc.

Definition qc_x_all (qc : QuantumCircuit) (qs : list Z) : result QuantumCircuit :=
  for_each qs (fun i qc' => qc_x qc' i) qc.

Fixpoint resolve_all (size : nat) (l : list Z) : result (list nat) :=
  match l with
  | [] => Ok []
  | i :: l' =>
      q <- bit_index size i ;; qs <- resolve_all size l' ;; Ok (q :: qs)
  end.

Fixpoint distinct (l : list nat) : bool :=
  match l with
  | [] => true
  | a :: l' => negb (existsb (Nat.eqb a) l') && distinct l'
  end.

(** [qc.mcx(controls, target)]: the qubits of one instruction are distinct *)
Definition qc_mcx (qc : QuantumCircuit) (controls : list Z) (target : Z)
  : result QuantumCircuit :=
  cs <- resolve_all (num_qubits qc) controls ;;
  t <- bit_index (num_qubits qc) target ;;
  if distinct (cs ++ [t]) then Ok (push qc (MCXGate cs t))
  else Raise (CircuitError "duplicate qubit arguments").

(** [qc.measure(qubits, clbits)]: qubit and classical bit are paired up in
    order *)
Fixpoint qc_measure (qc : QuantumCircuit) (qs cs : list Z) : result QuantumCircuit :=
  match qs, cs with
  | q :: qs', c :: cs' =>
      q' <- bit_index (num_qubits qc) q ;;
      c' <- bit_index (num_clbits qc) c ;;
      qc_measure (push qc (Measure q' c')) qs' cs'
  | [], [] => Ok qc
  | _, _ => Raise (CircuitError "register size error")
  end.

(** [sub.to_instruction()] then [qc.append(..., qargs)] *)
Definition to_instruction (sub : QuantumCircuit) (qargs : list nat) : instruction :=
  Composite (name sub) (data sub) (num_qubits sub) qargs.

Definition qc_append (qc sub : QuantumCircuit) (qargs : list Z)
  : result QuantumCircuit :=
  qs <- resolve_all (num_qubits qc) qargs ;;
  if negb (Nat.eqb (List.length qs) (num_qubits sub))
  then Raise (CircuitError "The amount of qubit arguments does not match")
  else if distinct qs then Ok (push qc (to_instruction sub qs))
  else Raise (CircuitError "duplicate qubit arguments").

(** ** [circuits/grover.py] *)

(** [marked_index >= 2**n].  For a negative [n] Python's [2**n] is a float:
    a value strictly between 0 and 1, or 0.0 once it underflows. *)
Definition ge_pow2 (marked_index n : Z) : bool :=
  if 0 <=? n then 2 ^ n <=? marked_index
  else if n <? -1074 then 0 <=? marked_index
  else 1 <=? marked_index.

(** [for i, b in enumerate(bs): if b == "0": qc.x(i)], lines 34-36 and 51-53 *)
Definition flip_zero_bits (qc : QuantumCircuit) (bs : string) : result QuantumCircuit :=
  for_each (enumerate bs)
    (fun '(i, b) qc' => if Ascii.eqb b "0" then qc_x qc' i else Ok qc') qc.

(** [build_oracle], lines 18-55 *)
Definition build_oracle (n marked_index : Z) : result QuantumCircuit :=
  if (marked_index <? 0) || ge_pow2 marked_index n
  then Raise (ValueError "marked_index out of range")
  else
    bs <- index_to_bitstring marked_index n ;;
    qc <- new_circuit n 0 (Some ("Oracle(" ++ bs ++ ")")%string) ;;
    (* Flip qubits where bit is '0' so that the marked state maps to |11...1> *)
    qc <- flip_zero_bits qc bs ;;
    (* Implement multi-controlled Z *)
    qc <- (if n =? 1 then qc_z qc 0
           else
             qc <- qc_h qc (n - 1) ;;
             let controls := range 0 (n - 1) in
             qc <- qc_mcx qc controls (n - 1) ;;
             qc_h qc (n - 1)) ;;
    (* Undo the initial Xs *)
    flip_zero_bits qc bs.

(** [build_diffuser], lines 58-85 *)
Definition build_diffuser (n : Z) : result QuantumCircuit :=
  qc <- new_circuit n 0 (Some "Diffuser") ;;
  qc <- qc_h_all qc (range 0 n) ;;
  qc <- qc_x_all qc (range 0 n) ;;
  (* multi-controlled Z *)
  qc <- (if n =? 1 then qc_z qc 0
         else
           qc <- qc_h qc (n - 1) ;;
           let controls := range 0 (n - 1) in
           qc <- qc_mcx qc controls (n - 1) ;;
           qc_h qc (n - 1)) ;;
  (* undo X and H *)
  qc <- qc_x_all qc (range 0 n) ;;
  qc_h_all qc (range 0 n).

(** [build_grover_circuit], lines 88-112 *)
Definition build_grover_circuit (n marked_index iterations : Z)
  : result QuantumCircuit :=
  if n <? 1 then Raise (ValueError "n must be >= 1")
  else
    qc <- new_circuit n n None ;;
    qc <- qc_h_all qc (range 0 n) ;;
    oracle <- build_oracle n marked_index ;;
    diffuser <- build_diffuser n ;;
    qc <- for_each (range 0 iterations)
            (fun _ qc' =>
               qc'' <- qc_append qc' oracle (range 0 n) ;;
               qc_append qc'' diffuser (range 0 n)) qc ;;
    qc_measure qc (range 0 n) (range 0 n).

(** The flat gate sequence of a circuit: a composite instruction stands for
    its definition with qubit [j] of the definition placed on [qargs[j]]. *)
Fixpoint inline (place : nat -> nat) (i : instruction) : list instruction :=
  match i with
  | XGate q => [XGate (place q)]
  | HGate q => [HGate (place q)]
  | ZGate q => [ZGate (place q)]
  | MCXGate cs t => [MCXGate (map place cs) (place t)]
  | Measure q c => [Measure (place q) c]
  | Composite _ body _ qargs =>
      flat_map (inline (fun j => place (nth j qargs 0%nat))) body
  end.

Definition gate_sequence (qc : QuantumCircuit) : list instruction :=
  flat_map (inline (fun q => q)) (data qc).

(** ** [recommend_iterations], main.py lines 22-25

    Python's [float] is the IEEE 754 binary64 format: 53 bits of precision,
    exponents below 1024, rounding to nearest, ties to even.  The operations
    are those of the Standard Library's specification of floating-point
    arithmetic, [SpecFloat], at that format. *)

Definition prec : Z := 53.
Definition emax : Z := 1024.
Definition float : Type := spec_float.

(** [math.pi], the float [0x1.921fb54442d18p+1] *)
Definition math_pi : float := S754_finite false 0x1921fb54442d18 (-51).

(** A number the function meets is an [int] or a [float]. *)
Inductive number : Type :=
| PyInt (z : Z)
| PyFloat (x : float).

(** Conversion of an [int] to a [float], as [math.sqrt] and the division do
    with an [int] argument: the nearest float, and [OverflowError] when the
    integer is beyond the largest float. *)
Definition float_of_int (z : Z) : result float :=
  match binary_normalize prec emax z 0 false with
  | S754_infinity _ => Raise (OverflowError "int too large to convert to float")
  | x => Ok x
  end.

Definition to_float (x : number) : result float :=
  match x with
  | PyInt z => float_of_int z
  | PyFloat x => Ok x
  end.

(** [2 ** n]: an [int] for [n >= 0]; for a negative [n] Python computes the
    power in floats, which gives the float nearest to [2^n] (0.0 below the
    smallest subnormal). *)
Definition pow2 (n : Z) : number :=
  if 0 <=? n then PyInt (2 ^ n)
  else PyFloat (SFldexp prec emax (SFone prec emax) n).

(** [math.sqrt] *)
Definition math_sqrt (x : number) : result float :=
  x <- to_float x ;;
  match x with
  | S754_finite true _ _ | S754_infinity true =>
      Raise (ValueError "math domain error")
  | _ => Ok (SFsqrt prec emax x)
  end.

(** [math.floor] of a float, an [int] *)
Definition math_floor (x : float) : result Z :=
  match x with
  | S754_zero _ => Ok 0
  | S754_finite s m e =>
      let v := cond_Zopp s (Zpos m) in
      Ok (if 0 <=? e then v * 2 ^ e else v / 2 ^ (- e))
  | S754_infinity _ =>
      Raise (OverflowError "cannot convert float infinity to integer")
  | S754_nan => Raise (ValueError "cannot convert float NaN to integer")
  end.

(** [math.pi / 4]: the [int] 4 is converted, the quotient rounded. *)
Definition quarter_pi : result float :=
  four <- float_of_int 4 ;;
  Ok (SFdiv prec emax math_pi four).

Definition recommend_iterations (n : Z) : result Z :=
  let N := pow2 n in
  q <- quarter_pi ;;
  r <- math_sqrt N ;;
  k <- math_floor (SFmul prec emax q r) ;;
  Ok (Z.max 1 k).


(** ** State vectors

    The circuits run on Qiskit's simulator.  A state of the register is its
    vector of complex amplitudes, one per basis state, here a function from
    the index of a basis state to its amplitude.  Qiskit numbers basis states
    with qubit 0 as the least significant bit: in basis state [k] qubit [q]
    holds bit [q] of [k], that is [Nat.testbit k q]. *)

Record C : Type := mkC { Re : R; Im : R }.

Definition C0 : C := mkC 0 0.
Definition C1 : C := mkC 1 0.
Definition RtoC (r : R) : C := mkC r 0.
Definition Cadd (a b : C) : C := mkC (Re a + Re b) (Im a + Im b).
Definition Copp (a : C) : C := mkC (- Re a) (- Im a).
Definition Csub (a b : C) : C := mkC (Re a - Re b) (Im a - Im b).
Definition Cmul (a b : C) : C :=
  mkC (Re a * Re b - Im a * Im b) (Re a * Im b + Im a * Re b).
Definition Cscale (r : R) (a : C) : C := mkC (r * Re a) (r * Im a).
(** squared magnitude: the probability an amplitude stands for *)
Definition Cnorm2 (a : C) : R := Re a * Re a + Im a * Im a.

Definition State : Type := nat -> C.

(** [1/sqrt 2], the entry of the Hadamard matrix *)
Definition rsqrt2 : R := / sqrt 2.

(** basis state [k] with bit [q] inverted *)
Definition flip_bit (k q : nat) : nat := Nat.lxor k (2 ^ q).

(** X on qubit [q] exchanges the amplitudes of [k] and [k] with bit [q]
    inverted. *)
Definition apply_x (q : nat) (psi : State) : State :=
  fun k => psi (flip_bit k q).

(** H on qubit [q]: with [a0], [a1] the amplitudes of the two basis states
    that agree with [k] off qubit [q], the new amplitude is
    [(a0 + a1)/sqrt 2] where bit [q] of [k] is 0 and [(a0 - a1)/sqrt 2]
    where it is 1. *)
Definition apply_h (q : nat) (psi : State) : State :=
  fun k =>
    let a0 := psi (Nat.clearbit k q) in
    let a1 := psi (Nat.setbit k q) in
    Cscale rsqrt2 (if Nat.testbit k q then Csub a0 a1 else Cadd a0 a1).

(** Z on qubit [q] negates the amplitudes of the basis states where qubit
    [q] is 1. *)
Definition apply_z (q : nat) (psi : State) : State :=
  fun k => if Nat.testbit k q then Copp (psi k) else psi k.

(** Multi-controlled X: where all controls are 1, the target is inverted. *)
Definition apply_mcx (controls : list nat) (target : nat) (psi : State) : State :=
  fun k => if forallb (Nat.testbit k) controls then psi (flip_bit k target) else psi k.

(** One instruction.  A measurement ends the circuit and is read off the
    state before it (see [probability]), so it leaves the amplitudes as they
    are; a composite instruction runs its definition on its qubits. *)
Fixpoint apply_instruction (place : nat -> nat) (i : instruction) (psi : State)
  : State :=
  match i with
  | XGate q => apply_x (place q) psi
  | HGate q => apply_h (place q) psi
  | ZGate q => apply_z (place q) psi
  | MCXGate cs t => apply_mcx (map place cs) (place t) psi
  | Measure _ _ => psi
  | Composite _ body _ qargs =>
      fold_left
        (fun phi j => apply_instruction (fun q => place (nth q qargs 0%nat)) j phi)
        body psi
  end.

Definition run (gs : list instruction) (psi : State) : State :=
  fold_left (fun phi g => apply_instruction (fun q => q) g phi) gs psi.

Definition run_circuit (qc : QuantumCircuit) (psi : State) : State :=
  run (data qc) psi.

(** The register starts in basis state 0. *)
Definition initial_state : State :=
  fun k => if (k =? 0)%nat then C1 else C0.

(** Uniform superposition over [n] qubits: amplitude [1/sqrt(2^n)] on each
    of the [2^n] basis states. *)
Definition uniform (n : nat) : State :=
  fun k => if (k <? 2 ^ n)%nat then RtoC (/ sqrt (2 ^ n)) else C0.

(** Probability of finding the register in basis state [k] *)
Definition probability (psi : State) (k : nat) : R := Cnorm2 (psi k).

(** Sum and mean of the first [m] amplitudes *)
Fixpoint amplitude_sum (psi : State) (m : nat) : C :=
  match m with
  | O => C0
  | S m' => Cadd (amplitude_sum psi m') (psi m')
  end.

Definition mean (n : nat) (psi : State) : C :=
  Cscale (/ 2 ^ n) (amplitude_sum psi (2 ^ n)).

(** Reflection of the amplitudes about their mean: [a_k] becomes
    [2 * mean - a_k]. *)
Definition reflect_about_mean (n : nat) (psi : State) : State :=
  fun k => Csub (Cscale 2 (mean n psi)) (psi k).

(** Equality of [n]-qubit states up to a global phase factor *)
Definition equal_up_to_phase (n : nat) (psi phi : State) : Prop :=
  exists c : C, Cnorm2 c = 1%R /\
    forall k, (k < 2 ^ n)%nat -> psi k = Cmul c (phi k).

(** The key under which Qiskit's [get_counts] files an outcome: the text of
    the classical register with classical bit 0 rightmost, which is the
    [n]-digit binary numeral of the register's value.  After
    [measure(range(n), range(n))] classical bit [i] holds qubit [i], so the
    register's value is the index of the basis state found. *)
Definition counts_key (n k : nat) : string :=
  match format_0nb (Z.of_nat k) (Z.of_nat n) with
  | Ok s => s
  | Raise _ => ""
  end.
Definition bitchar (b : bool) : ascii := if b then "1"%char else "0"%char.

(** The multi-controlled Z block that [build_oracle] (lines 41-48) and
    [build_diffuser] (lines 74-80) both contain, word for word *)
Definition multi_controlled_z (qc : QuantumCircuit) (n : Z) : result QuantumCircuit :=
  if n =? 1 then qc_z qc 0
  else
    qc1 <- qc_h qc (n - 1) ;;
    let controls := range 0 (n - 1) in
    qc2 <- qc_mcx qc1 controls (n - 1) ;;
    qc_h qc2 (n - 1).

Definition extend (qc : QuantumCircuit) (gs : list instruction) : QuantumCircuit :=
  mkCircuit (num_qubits qc) (num_clbits qc) (name qc) (data qc ++ gs).

(** The X gates of one pass over the bit text, the first character being
    qubit [i]. *)
Fixpoint x_gates_from (i : nat) (bs : string) : list instruction :=
  match bs with
  | EmptyString => []
  | String b bs' =>
      (if Ascii.eqb b "0" then [XGate i] else []) ++ x_gates_from (S i) bs'
  end.

Definition x_gates (bs : string) : list instruction := x_gates_from 0 bs.

Definition mcz_gates (n : nat) : list instruction :=
  if (n =? 1)%nat then [ZGate 0]
  else [HGate (n - 1); MCXGate (seq 0 (n - 1)) (n - 1); HGate (n - 1)].

Definition oracle_gates (n : nat) (bs : string) : list instruction :=
  x_gates bs ++ mcz_gates n ++ x_gates bs.

Definition diffuser_gates (n : nat) : list instruction :=
  map HGate (seq 0 n) ++ map XGate (seq 0 n) ++ mcz_gates n
    ++ map XGate (seq 0 n) ++ map HGate (seq 0 n).

Definition measure_gates (n : nat) : list instruction :=
  map (fun i => Measure i i) (seq 0 n).

Definition grover_blocks (oracle diffuser : QuantumCircuit) (n k : nat)
  : list instruction :=
  List.concat (repeat [to_instruction oracle (seq 0 n); to_instruction diffuser (seq 0 n)] k).

Definition primitive_on (n : nat) (g : instruction) : bool :=
  match g with
  | XGate q | HGate q | ZGate q | Measure q _ => (q <? n)%nat
  | MCXGate cs t => forallb (fun c => (c <? n)%nat) cs && (t <? n)%nat
  | Composite _ _ _ _ => false
  end.

(** *** Auxiliary notions for the semantics *)

(** basis state [k] after the X gates on the qubits [qs] *)
Definition flips (qs : list nat) (k : nat) : nat :=
  fold_right (fun q k' => flip_bit k' q) k qs.

(** whether qubit [m] is inverted an odd number of times by X on [qs] *)
Fixpoint parity (m : nat) (qs : list nat) : bool :=
  match qs with
  | [] => false
  | q :: qs' => xorb (q =? m)%nat (parity m qs')
  end.

(** qubits [0..m-1] of basis state [k] are all 0 *)
Definition lowzero (m k : nat) : bool :=
  forallb (fun q => negb (Nat.testbit k q)) (seq 0 m).

(** basis state [k] with qubits [0..m-1] set to 0 *)
Definition clearlow (m k : nat) : nat := Nat.ldiff k (Nat.ones m).

Definition state_add (psi phi : State) : State := fun k => Cadd (psi k) (phi k).
Definition state_scale (r : R) (psi : State) : State := fun k => Cscale r (psi k).

(** the part of a state on the basis states with qubits [0..m-1] all 0 *)
Definition mask (m : nat) (psi : State) : State :=
  fun k => if lowzero m k then psi k else C0.

(** the phase flip at the centre of the diffuser: X on all qubits, the
    multi-controlled Z, X on all qubits *)
Definition flip_zero_state (n : nat) (psi : State) : State :=
  fun k => if lowzero n k then Copp (psi k) else psi k.

(** the layer of H gates on qubits [0..m-1] *)
Definition h_layer (m : nat) (psi : State) : State := run (map HGate (seq 0 m)) psi.

(** the qubits that one pass of X gates over the bit text inverts *)
Fixpoint zero_positions_from (i : nat) (bs : string) : list nat :=
  match bs with
  | EmptyString => []
  | String b bs' =>
      (if Ascii.eqb b "0" then [i] else []) ++ zero_positions_from (S i) bs'
  end.

(** The basis state in which qubit [i] holds character [i] of the bit text:
    as qubit 0 is the least significant bit of a basis-state index, this is
    the text read with its first character as the lowest bit. *)
Fixpoint state_of_bits (bs : string) : nat :=
  match bs with
  | EmptyString => 0
  | String b bs' => 2 * state_of_bits bs' + Nat.b2n (Ascii.eqb b "1")
  end.

(** The classical register after the measurements of a gate sequence, when
    the qubits are found in basis state [k]. *)
Definition classical_value (gs : list instruction) (k : nat) : nat :=
  fold_left
    (fun v g =>
       match g with
       | Measure q c => if Nat.testbit k q then Nat.setbit v c else Nat.clearbit v c
       | _ => v
       end) gs 0%nat.

(** ** Basis states by index

    The basis state [|j>] of an [n]-qubit register, as the oracle's docstring
    names the state [|marked_index>]: qubit [i] holds bit [i] of the
    [n]-digit binary numeral of [j], most significant bit first, which is how
    [build_oracle] lays the bit text on the qubits.  A state vector lists its
    amplitudes by position, qubit 0 being the least significant bit of the
    position; [basis_state n j] is the position of [|j>] and
    [amplitude n psi j] the amplitude [psi] gives it. *)
Fixpoint basis_state (n : nat) (j : Z) : nat :=
  match n with
  | O => 0
  | S n' => 2 * basis_state n' j + Nat.b2n (Z.testbit j (Z.of_nat n'))
  end.

Definition amplitude (n : nat) (psi : State) (j : Z) : C :=
  psi (basis_state n j).


(** ** [main.py]: what [run_grover] and the command line do before the
    simulator runs *)

(** [run_grover], lines 29-34: the iteration count falls back to the
    recommendation, then the circuit is built. *)
Definition run_grover_circuit (n marked : Z) (iterations : option Z)
  : result QuantumCircuit :=
  iterations <-
    match iterations with
    | None => recommend_iterations n
    | Some i => Ok i
    end ;;
  build_grover_circuit n marked iterations.

(** One line of the table of recommendations, for the [n] on which the
    float arithmetic has to be run: the calls for [n - 1] and [n] return, the
    values are at least 1 and do not decrease, the value [r] for a negative
    [n] is 1 and otherwise [r * r <= 2^n]; for [n >= 1],
    [r <= 0.7854 * sqrt(2^n)] and [0.7853975 * sqrt(2^n) <= r + 1], written
    with integers. *)
Definition recommendation_check (n : Z) : bool :=
  match recommend_iterations (n - 1), recommend_iterations n with
  | Ok r0, Ok r =>
      (1 <=? r0) && (r0 <=? r)
      && (if n <? 0 then r =? 1 else r * r <=? 2 ^ n)
      && (if n <? 1 then true
          else ((400000 * r) ^ 2 <=? 314160 ^ 2 * 2 ^ n)
               && (314159 ^ 2 * 2 ^ n <=? (400000 * (r + 1)) ^ 2))
  | _, _ => false
  end.

(** The command line, lines 74 and 82-87: [--n] is one of 1, 2, 3 (for
    anything else argparse prints its usage message and ends the program:
    [ArgparseError]), and a marked index outside [[0, 2^n - 1]] ends the
    program at line 86 with [SystemExit] and the message built there, before
    [run_grover] is called. *)
(** Python's [str] of an integer, as an f-string prints it *)
Definition py_str (z : Z) : string := NilZero.string_of_int (Z.to_int z).

Inductive cli_outcome : Type :=
| ArgparseError
| SystemExit (msg : string)
| Called (r : result QuantumCircuit).

Definition main (n marked : Z) (iterations : option Z) : cli_outcome :=
  if negb (existsb (Z.eqb n) [1; 2; 3]) then ArgparseError
  else
    let N := 2 ^ n in
    if (marked <? 0) || (marked >=? N)
    then SystemExit ("Marked must be in [0, " ++ py_str (N - 1) ++ "] for n="
                       ++ py_str n)%string
    else Called (run_grover_circuit n marked iterations).

(** ** Notions used to state what the circuits do *)

(** Sum of the probabilities of the first [m] basis states *)
Fixpoint probability_sum (psi : State) (m : nat) : R :=
  match m with
  | O => 0%R
  | S m' => (probability_sum psi m' + probability psi m')%R
  end.

(** Total probability over the [2^n] basis states of [n] qubits *)
Definition total_probability (n : nat) (psi : State) : R :=
  probability_sum psi (2 ^ n).

(** A state with real amplitude [a] on basis state [t] and [b] on every
    other basis state *)
Definition two_level (t : nat) (ab : R * R) : State :=
  fun k => RtoC (if (k =? t)%nat then fst ab else snd ab).

(** One oracle-diffuser round on such a state over [N] basis states: the
    oracle negates [a], the diffuser subtracts twice the mean from every
    amplitude. *)
Definition grover_step (N : R) (ab : R * R) : R * R :=
  let mu := ((- fst ab + (N - 1) * snd ab) / N)%R in
  (- fst ab - 2 * mu, snd ab - 2 * mu)%R.

(** The two amplitudes after [it] rounds, starting from the uniform
    superposition *)
Definition grover_amplitudes (n it : nat) : R * R :=
  Nat.iter it (grover_step (2 ^ n)%R) (/ sqrt (2 ^ n), / sqrt (2 ^ n))%R.

(** A text read backwards *)
Fixpoint string_rev (s : string) : string :=
  match s with
  | EmptyString => EmptyString
  | String c s' => (string_rev s' ++ String c EmptyString)%string
  end.

(** A text of binary digits read as a numeral, most significant digit
    first, as Python's [int(s, 2)] reads it *)
Fixpoint binary_value_from (acc : Z) (s : string) : Z :=
  match s with
  | EmptyString => acc
  | String c s' => binary_value_from (2 * acc + (if Ascii.eqb c "1" then 1 else 0)) s'
  end.

Definition binary_value (s : string) : Z := binary_value_from 0 s.

Definition is_measure (g : instruction) : bool :=
  match g with
  | Measure _ _ => true
  | _ => false
  end.
Example oracle_2_2 :
  option_map data (match build_oracle 2 2 with Ok c => Some c | Raise _ => None end)
  = Some [XGate 1; HGate 1; MCXGate [0%nat] 1; HGate 1; XGate 1].
Proof. reflexivity. Qed.

(** * Properties *)

(** ** The binary text of an index *)

Lemma length_append (s t : string) :
  String.length (s ++ t) = (String.length s + String.length t)%nat.
Proof. induction s as [|c s IH]; simpl; [reflexivity | now rewrite IH]. Qed.

Lemma length_zeros k : String.length (zeros k) = k.
Proof. induction k as [|k IH]; simpl; [reflexivity | now rewrite IH]. Qed.

Lemma get_zeros k j : (j < k)%nat -> String.get j (zeros k) = Some "0"%char.
Proof.
  revert j; induction k as [|k IH]; intros j Hj; [lia|].
  destruct j as [|j]; simpl; [reflexivity | apply IH; lia].
Qed.

Lemma get_append_l (s t : string) j :
  (j < String.length s)%nat -> String.get j (s ++ t) = String.get j s.
Proof.
  revert j; induction s as [|c s IH]; simpl; intros j Hj; [lia|].
  destruct j as [|j]; [reflexivity | apply IH; lia].
Qed.

Lemma get_append_r (s t : string) j :
  String.get (String.length s + j) (s ++ t) = String.get j t.
Proof. induction s as [|c s IH]; simpl; [reflexivity | exact IH]. Qed.

Lemma length_bin_digits p acc :
  String.length (bin_digits p acc) = (Pos.size_nat p + String.length acc)%nat.
Proof.
  revert acc; induction p as [p IH|p IH|]; intro acc; simpl;
    try rewrite IH; simpl; lia.
Qed.

Lemma get_bin_digits_acc p acc i :
  String.get (Pos.size_nat p + i) (bin_digits p acc) = String.get i acc.
Proof.
  revert acc i; induction p as [p IH|p IH|]; intros acc i; simpl.
  - replace (S (Pos.size_nat p + i)) with (Pos.size_nat p + S i)%nat by lia.
    now rewrite IH.
  - replace (S (Pos.size_nat p + i)) with (Pos.size_nat p + S i)%nat by lia.
    now rewrite IH.
  - reflexivity.
Qed.

Lemma get_bin_digits p acc j :
  (j < Pos.size_nat p)%nat ->
  String.get j (bin_digits p acc)
  = Some (bitchar (Pos.testbit_nat p (Pos.size_nat p - 1 - j))).
Proof.
  revert acc j; induction p as [p IH|p IH|]; intros acc j Hj; simpl in *.
  - destruct (Nat.eq_dec j (Pos.size_nat p)) as [->|Hne].
    + replace (Pos.size_nat p) with (Pos.size_nat p + 0)%nat at 1 by lia.
      rewrite get_bin_digits_acc.
      now replace (Pos.size_nat p - 0 - Pos.size_nat p)%nat with 0%nat by lia.
    + rewrite IH by lia.
      now replace (Pos.size_nat p - 0 - j)%nat
        with (S (Pos.size_nat p - 1 - j)) by lia.
  - destruct (Nat.eq_dec j (Pos.size_nat p)) as [->|Hne].
    + replace (Pos.size_nat p) with (Pos.size_nat p + 0)%nat at 1 by lia.
      rewrite get_bin_digits_acc.
      now replace (Pos.size_nat p - 0 - Pos.size_nat p)%nat with 0%nat by lia.
    + rewrite IH by lia.
      now replace (Pos.size_nat p - 0 - j)%nat
        with (S (Pos.size_nat p - 1 - j)) by lia.
  - now replace j with 0%nat by lia.
Qed.

Lemma testbit_nat_above p m :
  (Pos.size_nat p <= m)%nat -> Pos.testbit_nat p m = false.
Proof.
  revert m; induction p as [p IH|p IH|]; intros m Hm; simpl in *;
    destruct m as [|m]; try lia; try (apply IH; lia); reflexivity.
Qed.

Lemma Ztestbit_pos_nat p m :
  Z.testbit (Zpos p) (Z.of_nat m) = Pos.testbit_nat p m.
Proof.
  revert p; induction m as [|m IH]; intro p.
  - destruct p; reflexivity.
  - rewrite Nat2Z.inj_succ.
    destruct p as [p|p|]; simpl Pos.testbit_nat.
    + rewrite Pos2Z.inj_xI, Z.testbit_odd_succ by lia. apply IH.
    + rewrite Pos2Z.inj_xO, Z.testbit_even_succ by lia. apply IH.
    + change 1 with (2 * 0 + 1).
      rewrite Z.testbit_odd_succ by lia. apply Z.testbit_0_l.
Qed.

Lemma length_bin_abs index :
  String.length (bin_abs index)
  = match index with Z0 => 1%nat | Zpos p | Zneg p => Pos.size_nat p end.
Proof.
  destruct index; simpl; [reflexivity | | ]; rewrite length_bin_digits; simpl; lia.
Qed.

Lemma get_bin_abs index j :
  0 <= index -> (j < String.length (bin_abs index))%nat ->
  String.get j (bin_abs index)
  = Some (bitchar (Z.testbit index
                     (Z.of_nat (String.length (bin_abs index)) - 1 - Z.of_nat j))).
Proof.
  intros Hi Hj. rewrite length_bin_abs in *.
  destruct index as [|p|p]; [| | lia].
  - replace j with 0%nat by lia. reflexivity.
  - simpl bin_abs. rewrite get_bin_digits by assumption.
    replace (Z.of_nat (Pos.size_nat p) - 1 - Z.of_nat j)
      with (Z.of_nat (Pos.size_nat p - 1 - j)) by lia.
    now rewrite Ztestbit_pos_nat.
Qed.

Lemma testbit_above_bin_abs index m :
  0 <= index -> (String.length (bin_abs index) <= m)%nat ->
  Z.testbit index (Z.of_nat m) = false.
Proof.
  intros Hi Hm. rewrite length_bin_abs in Hm.
  destruct index as [|p|p]; [apply Z.testbit_0_l | | lia].
  rewrite Ztestbit_pos_nat. now apply testbit_nat_above.
Qed.

Lemma length_bin_abs_le index n :
  0 <= n -> 0 <= index ->
  (String.length (bin_abs index) <= Z.to_nat n)%nat <-> index < 2 ^ n /\ 1 <= n.
Proof.
  intros Hn Hi. rewrite length_bin_abs.
  rewrite <- (Z2Nat.id n) at 2 3 by assumption.
  destruct index as [|p|p]; [| | lia].
  - assert (0 < 2 ^ Z.of_nat (Z.to_nat n)) by (apply Z.pow_pos_nonneg; lia). lia.
  - rewrite Zpower2_Psize.
    assert (1 <= Pos.size_nat p)%nat by (destruct p; simpl; lia). lia.
Qed.

(** Inside the range the text has [n] characters and character [j] is the
    bit of weight [2^(n-1-j)]. *)
Lemma index_to_bitstring_in_range index n :
  1 <= n -> 0 <= index < 2 ^ n ->
  exists s, index_to_bitstring index n = Ok s
    /\ String.length s = Z.to_nat n
    /\ forall j, (j < Z.to_nat n)%nat ->
         String.get j s = Some (bitchar (Z.testbit index (n - 1 - Z.of_nat j))).
Proof.
  intros Hn [Hlo Hhi]. unfold index_to_bitstring, format_0nb.
  destruct (Z.ltb_spec n 0) as [|_]; [lia|].
  destruct (Z.ltb_spec index 0) as [|_]; [lia|].
  assert (Hlen : (String.length (bin_abs index) <= Z.to_nat n)%nat)
    by (apply length_bin_abs_le; lia).
  simpl String.length. simpl append at 1.
  set (d := bin_abs index) in *.
  set (pad := (Z.to_nat n - 0 - String.length d)%nat).
  exists (zeros pad ++ d)%string. split; [reflexivity|]. split.
  - rewrite length_append, length_zeros. unfold pad. lia.
  - intros j Hj. destruct (Nat.lt_ge_cases j pad) as [Hlt|Hge].
    + rewrite get_append_l by (rewrite length_zeros; exact Hlt).
      rewrite get_zeros by exact Hlt.
      replace (n - 1 - Z.of_nat j) with (Z.of_nat (Z.to_nat n - 1 - j)) by lia.
      rewrite (testbit_above_bin_abs index) by (fold d; unfold pad in Hlt; lia).
      reflexivity.
    + replace j with (String.length (zeros pad) + (j - pad))%nat
        by (rewrite length_zeros; lia).
      rewrite get_append_r. unfold d.
      rewrite get_bin_abs by (fold d; unfold pad in *; lia).
      fold d. f_equal. f_equal. f_equal.
      rewrite length_zeros. unfold pad in *. lia.
Qed.

(** No index is refused: the only check is on the width. *)
Lemma index_to_bitstring_total index n :
  0 <= n -> exists s, index_to_bitstring index n = Ok s.
Proof.
  intros Hn. unfold index_to_bitstring, format_0nb.
  destruct (Z.ltb_spec n 0) as [|_]; [lia|]. eexists; reflexivity.
Qed.

(** At or above [2^n] nothing is cut off: all digits of the index appear. *)
Lemma index_to_bitstring_above index n :
  0 <= n -> 2 ^ n <= index ->
  exists s, index_to_bitstring index n = Ok s
    /\ (Z.to_nat n < String.length s)%nat
    /\ forall j, (j < String.length s)%nat ->
         String.get j s
         = Some (bitchar (Z.testbit index (Z.of_nat (String.length s) - 1 - Z.of_nat j))).
Proof.
  intros Hn Hge. unfold index_to_bitstring, format_0nb.
  assert (0 < 2 ^ n) by (apply Z.pow_pos_nonneg; lia).
  destruct (Z.ltb_spec n 0) as [|_]; [lia|].
  destruct (Z.ltb_spec index 0) as [|_]; [lia|].
  assert (Hlen : ~ (String.length (bin_abs index) <= Z.to_nat n)%nat)
    by (rewrite length_bin_abs_le; lia).
  simpl String.length. simpl append at 1.
  replace (Z.to_nat n - 0 - String.length (bin_abs index))%nat with 0%nat by lia.
  simpl. exists (bin_abs index). split; [reflexivity|]. split; [lia|].
  intros j Hj. apply get_bin_abs; [lia | exact Hj].
Qed.

(** A negative index keeps its minus sign. *)
Lemma index_to_bitstring_negative index n :
  0 <= n -> index < 0 ->
  exists s, index_to_bitstring index n = Ok (String "-" s).
Proof.
  intros Hn Hneg. unfold index_to_bitstring, format_0nb.
  destruct (Z.ltb_spec n 0) as [|_]; [lia|].
  destruct (Z.ltb_spec index 0) as [_|]; [|lia].
  eexists. simpl. reflexivity.
Qed.

Example bitstring_5_3 : index_to_bitstring 5 3 = Ok "101".
Proof. reflexivity. Qed.
Example bitstring_1_3 : index_to_bitstring 1 3 = Ok "001".
Proof. reflexivity. Qed.
Example bitstring_neg : index_to_bitstring (-1) 3 = Ok "-01".
Proof. reflexivity. Qed.

(** ** What the builders append *)

Lemma extend_nil qc : extend qc [] = qc.
Proof. destruct qc; unfold extend; simpl; now rewrite app_nil_r. Qed.

Lemma extend_extend qc a b : extend (extend qc a) b = extend qc (a ++ b).
Proof. unfold extend; simpl; now rewrite app_assoc. Qed.

Lemma push_extend qc g : push qc g = extend qc [g].
Proof. reflexivity. Qed.

Lemma bit_index_nat size i :
  (i < size)%nat -> bit_index size (Z.of_nat i) = Ok i.
Proof.
  intro Hi. unfold bit_index.
  destruct (Z.leb_spec 0 (Z.of_nat i)); [|lia].
  destruct (Z.ltb_spec (Z.of_nat i) (Z.of_nat size)); [|lia].
  simpl. now rewrite Nat2Z.id.
Qed.

Lemma range_nat k : range 0 (Z.of_nat k) = map Z.of_nat (seq 0 k).
Proof.
  unfold range. rewrite Z.sub_0_r, Nat2Z.id. apply map_ext. intro; lia.
Qed.

Lemma range_empty hi : hi <= 0 -> range 0 hi = [].
Proof. intro H. unfold range. now replace (Z.to_nat (hi - 0)) with 0%nat by lia. Qed.

Lemma for_each_gates (mk : nat -> instruction) (l : list nat) qc :
  Forall (fun i => (i < num_qubits qc)%nat) l ->
  for_each (map Z.of_nat l)
    (fun i qc' => q <- bit_index (num_qubits qc') i ;; Ok (push qc' (mk q))) qc
  = Ok (extend qc (map mk l)).
Proof.
  revert qc; induction l as [|a l IH]; intros qc Hall; simpl.
  - now rewrite extend_nil.
  - inversion Hall as [|? ? Ha Hl]; subst.
    rewrite bit_index_nat by exact Ha. simpl.
    rewrite IH by exact Hl. rewrite push_extend, extend_extend. reflexivity.
Qed.

Lemma Forall_seq_lt a k n : (a + k <= n)%nat -> Forall (fun i => (i < n)%nat) (seq a k).
Proof. intro H. apply Forall_forall. intros i Hi. apply in_seq in Hi. lia. Qed.

Lemma qc_h_all_range qc k :
  (k <= num_qubits qc)%nat ->
  qc_h_all qc (range 0 (Z.of_nat k)) = Ok (extend qc (map HGate (seq 0 k))).
Proof.
  intro Hk. unfold qc_h_all, qc_h. rewrite range_nat.
  apply (for_each_gates HGate). now apply Forall_seq_lt.
Qed.

Lemma qc_x_all_range qc k :
  (k <= num_qubits qc)%nat ->
  qc_x_all qc (range 0 (Z.of_nat k)) = Ok (extend qc (map XGate (seq 0 k))).
Proof.
  intro Hk. unfold qc_x_all, qc_x. rewrite range_nat.
  apply (for_each_gates XGate). now apply Forall_seq_lt.
Qed.

Lemma flip_zero_bits_from qc bs i :
  (i + String.length bs <= num_qubits qc)%nat ->
  for_each (enumerate_from (Z.of_nat i) bs)
    (fun '(j, b) qc' => if Ascii.eqb b "0" then qc_x qc' j else Ok qc') qc
  = Ok (extend qc (x_gates_from i bs)).
Proof.
  revert qc i; induction bs as [|b bs IH]; intros qc i Hlen; simpl in *.
  - now rewrite extend_nil.
  - replace (Z.of_nat i + 1) with (Z.of_nat (S i)) by lia.
    destruct (Ascii.eqb b "0").
    + unfold qc_x at 1. rewrite bit_index_nat by lia. cbn [bind].
      rewrite IH by (simpl; lia).
      now rewrite push_extend, extend_extend.
    + cbn [bind]. apply IH. lia.
Qed.

Lemma flip_zero_bits_ok qc bs :
  (String.length bs <= num_qubits qc)%nat ->
  flip_zero_bits qc bs = Ok (extend qc (x_gates bs)).
Proof. intro H. apply (flip_zero_bits_from qc bs 0). simpl; lia. Qed.

Lemma resolve_all_nat size l :
  Forall (fun i => (i < size)%nat) l ->
  resolve_all size (map Z.of_nat l) = Ok l.
Proof.
  induction l as [|a l IH]; intro Hall; simpl; [reflexivity|].
  inversion Hall; subst. rewrite bit_index_nat by assumption. simpl.
  now rewrite IH.
Qed.

Lemma existsb_seq_above a b k :
  (a < b)%nat -> existsb (Nat.eqb a) (seq b k) = false.
Proof.
  revert b; induction k as [|k IH]; intros b Hab; simpl; [reflexivity|].
  destruct (Nat.eqb_spec a b); [lia|]. apply IH. lia.
Qed.

Lemma distinct_seq a k : distinct (seq a k) = true.
Proof.
  revert a; induction k as [|k IH]; intro a; simpl; [reflexivity|].
  rewrite existsb_seq_above by lia. apply IH.
Qed.

Lemma qc_h_nat qc i :
  (i < num_qubits qc)%nat -> qc_h qc (Z.of_nat i) = Ok (extend qc [HGate i]).
Proof. intro H. unfold qc_h. now rewrite bit_index_nat. Qed.

Lemma qc_mcx_nat qc l t :
  Forall (fun i => (i < num_qubits qc)%nat) l -> (t < num_qubits qc)%nat ->
  distinct (l ++ [t]) = true ->
  qc_mcx qc (map Z.of_nat l) (Z.of_nat t) = Ok (extend qc [MCXGate l t]).
Proof.
  intros Hl Ht Hd. unfold qc_mcx.
  rewrite resolve_all_nat by exact Hl. cbn [bind].
  rewrite bit_index_nat by exact Ht. cbn [bind].
  now rewrite Hd.
Qed.

Lemma multi_controlled_z_ok qc n :
  num_qubits qc = n -> (1 <= n)%nat ->
  multi_controlled_z qc (Z.of_nat n) = Ok (extend qc (mcz_gates n)).
Proof.
  intros Hq Hn. unfold multi_controlled_z, mcz_gates.
  destruct (Nat.eqb_spec n 1) as [->|Hne].
  - simpl. unfold qc_z.
    change (bit_index (num_qubits qc) 0) with (bit_index (num_qubits qc) (Z.of_nat 0)).
    rewrite bit_index_nat by lia. reflexivity.
  - destruct (Z.eqb_spec (Z.of_nat n) 1) as [|_]; [lia|].
    replace (Z.of_nat n - 1) with (Z.of_nat (n - 1)) by lia.
    rewrite range_nat.
    rewrite qc_h_nat by lia. cbn [bind].
    rewrite qc_mcx_nat; cbn [bind].
    + rewrite qc_h_nat by (simpl; lia).
      now rewrite !extend_extend.
    + apply Forall_seq_lt. simpl. lia.
    + simpl. lia.
    + replace (seq 0 (n - 1) ++ [(n - 1)%nat]) with (seq 0 (S (n - 1)))
        by (rewrite seq_S; reflexivity).
      apply distinct_seq.
Qed.

Lemma build_oracle_unfold n marked_index :
  build_oracle n marked_index
  = if (marked_index <? 0) || ge_pow2 marked_index n
    then Raise (ValueError "marked_index out of range")
    else
      bs <- index_to_bitstring marked_index n ;;
      qc <- new_circuit n 0 (Some ("Oracle(" ++ bs ++ ")")%string) ;;
      qc <- flip_zero_bits qc bs ;;
      qc <- multi_controlled_z qc n ;;
      flip_zero_bits qc bs.
Proof. reflexivity. Qed.

Lemma build_diffuser_unfold n :
  build_diffuser n
  = (qc <- new_circuit n 0 (Some "Diffuser") ;;
     qc <- qc_h_all qc (range 0 n) ;;
     qc <- qc_x_all qc (range 0 n) ;;
     qc <- multi_controlled_z qc n ;;
     qc <- qc_x_all qc (range 0 n) ;;
     qc_h_all qc (range 0 n)).
Proof. reflexivity. Qed.

Lemma ge_pow2_nonneg m n : 0 <= n -> ge_pow2 m n = (2 ^ n <=? m).
Proof. intro H. unfold ge_pow2. destruct (Z.leb_spec 0 n); [reflexivity | lia]. Qed.

Lemma build_oracle_ok (n : nat) (m : Z) :
  (1 <= n)%nat -> 0 <= m < 2 ^ Z.of_nat n ->
  exists bs, index_to_bitstring m (Z.of_nat n) = Ok bs
    /\ String.length bs = n
    /\ build_oracle (Z.of_nat n) m
       = Ok (mkCircuit n 0 (Some ("Oracle(" ++ bs ++ ")")%string) (oracle_gates n bs)).
Proof.
  intros Hn Hm.
  destruct (index_to_bitstring_in_range m (Z.of_nat n)) as (bs & Hbs & Hlen & _);
    [lia | exact Hm |].
  rewrite Nat2Z.id in Hlen.
  exists bs. split; [exact Hbs|]. split; [exact Hlen|].
  rewrite build_oracle_unfold, ge_pow2_nonneg by lia.
  destruct (Z.ltb_spec m 0) as [|_]; [lia|].
  destruct (Z.leb_spec (2 ^ Z.of_nat n) m) as [|_]; [lia|].
  simpl orb. cbv iota. rewrite Hbs. simpl bind.
  unfold new_circuit. destruct (Z.ltb_spec (Z.of_nat n) 0) as [|_]; [lia|].
  simpl. rewrite Nat2Z.id.
  rewrite flip_zero_bits_ok by (simpl; lia). simpl bind.
  rewrite (multi_controlled_z_ok _ n) by (simpl; auto). simpl bind.
  rewrite flip_zero_bits_ok by (simpl; lia).
  unfold extend, oracle_gates. simpl. now rewrite <- app_assoc.
Qed.

Lemma build_diffuser_ok (n : nat) :
  (1 <= n)%nat ->
  build_diffuser (Z.of_nat n)
  = Ok (mkCircuit n 0 (Some "Diffuser") (diffuser_gates n)).
Proof.
  intro Hn. rewrite build_diffuser_unfold. unfold new_circuit.
  destruct (Z.ltb_spec (Z.of_nat n) 0) as [|_]; [lia|].
  simpl. rewrite Nat2Z.id.
  rewrite qc_h_all_range by (simpl; lia). simpl bind.
  rewrite qc_x_all_range by (simpl; lia). simpl bind.
  rewrite (multi_controlled_z_ok _ n) by (simpl; auto). simpl bind.
  rewrite qc_x_all_range by (simpl; lia). simpl bind.
  rewrite qc_h_all_range by (simpl; lia).
  unfold extend, diffuser_gates. simpl. now rewrite <- !app_assoc.
Qed.

Lemma qc_append_range qc sub n :
  num_qubits qc = n -> num_qubits sub = n ->
  qc_append qc sub (range 0 (Z.of_nat n))
  = Ok (extend qc [to_instruction sub (seq 0 n)]).
Proof.
  intros Hq Hs. unfold qc_append. rewrite range_nat, Hq.
  rewrite resolve_all_nat by (apply Forall_seq_lt; lia). cbn [bind].
  rewrite length_seq, Hs, Nat.eqb_refl, distinct_seq. reflexivity.
Qed.

Lemma grover_loop_ok {A} (l : list A) qc oracle diffuser n :
  num_qubits qc = n -> num_qubits oracle = n -> num_qubits diffuser = n ->
  for_each l
    (fun _ qc' =>
       qc'' <- qc_append qc' oracle (range 0 (Z.of_nat n)) ;;
       qc_append qc'' diffuser (range 0 (Z.of_nat n))) qc
  = Ok (extend qc (grover_blocks oracle diffuser n (List.length l))).
Proof.
  intros Hq Ho Hd. revert qc Hq.
  induction l as [|a l IH]; intros qc Hq; simpl.
  - unfold grover_blocks. simpl. now rewrite extend_nil.
  - rewrite (qc_append_range qc oracle n) by assumption. cbn [bind].
    rewrite (qc_append_range _ diffuser n) by (simpl; assumption). cbn [bind].
    rewrite IH by (simpl; assumption).
    rewrite !extend_extend. reflexivity.
Qed.

Lemma length_range hi : List.length (range 0 hi) = Z.to_nat hi.
Proof. unfold range. now rewrite length_map, length_seq, Z.sub_0_r. Qed.

Lemma qc_measure_nat qc l n :
  num_qubits qc = n -> num_clbits qc = n ->
  Forall (fun i => (i < n)%nat) l ->
  qc_measure qc (map Z.of_nat l) (map Z.of_nat l)
  = Ok (extend qc (map (fun i => Measure i i) l)).
Proof.
  revert qc; induction l as [|a l IH]; intros qc Hq Hc Hall; simpl.
  - now rewrite extend_nil.
  - inversion Hall; subst.
    rewrite Hc. rewrite bit_index_nat by assumption. cbn [bind].
    rewrite IH by (simpl; auto).
    now rewrite push_extend, extend_extend.
Qed.

(** The circuit [build_grover_circuit] returns, instruction by instruction. *)
Lemma build_grover_circuit_ok (n : nat) (m it : Z) :
  (1 <= n)%nat -> 0 <= m < 2 ^ Z.of_nat n ->
  exists oracle,
    build_oracle (Z.of_nat n) m = Ok oracle
    /\ num_qubits oracle = n
    /\ build_grover_circuit (Z.of_nat n) m it
       = Ok (mkCircuit n n None
               (map HGate (seq 0 n)
                  ++ grover_blocks oracle
                       (mkCircuit n 0 (Some "Diffuser") (diffuser_gates n))
                       n (Z.to_nat it)
                  ++ measure_gates n)).
Proof.
  intros Hn Hm.
  destruct (build_oracle_ok n m Hn Hm) as (bs & _ & _ & Ho).
  eexists. split; [exact Ho|]. split; [reflexivity|].
  unfold build_grover_circuit.
  destruct (Z.ltb_spec (Z.of_nat n) 1) as [|_]; [lia|].
  unfold new_circuit. destruct (Z.ltb_spec (Z.of_nat n) 0) as [|_]; [lia|].
  simpl orb. cbv iota. cbn [bind]. rewrite Nat2Z.id.
  rewrite qc_h_all_range by (simpl; lia). cbn [bind].
  rewrite Ho. cbn [bind].
  rewrite build_diffuser_ok by exact Hn. cbn [bind].
  rewrite (grover_loop_ok _ _ _ _ n) by reflexivity. cbn [bind].
  rewrite length_range, range_nat.
  rewrite (qc_measure_nat _ _ n) by (try reflexivity; apply Forall_seq_lt; lia).
  unfold extend, measure_gates. simpl. now rewrite <- app_assoc.
Qed.

(** *** Inlining a block placed on qubits [0..n-1] *)

Lemma map_id_on (place : nat -> nat) n cs :
  (forall q, (q < n)%nat -> place q = q) ->
  forallb (fun c => (c <? n)%nat) cs = true -> map place cs = cs.
Proof.
  intros Hp. induction cs as [|c cs IH]; simpl; intro H; [reflexivity|].
  apply andb_true_iff in H as [Hc Hcs]. apply Nat.ltb_lt in Hc.
  now rewrite Hp, IH.
Qed.

Lemma inline_primitive n place g :
  (forall q, (q < n)%nat -> place q = q) ->
  primitive_on n g = true -> inline place g = [g].
Proof.
  intros Hp Hg. destruct g as [q|q|q|cs t|q c|lbl body w qargs];
    simpl in *; try discriminate;
    try (apply Nat.ltb_lt in Hg; now rewrite Hp).
  apply andb_true_iff in Hg as [Hcs Ht]. apply Nat.ltb_lt in Ht.
  now rewrite (map_id_on place n), Hp.
Qed.

Lemma flat_map_inline_primitive n place gs :
  (forall q, (q < n)%nat -> place q = q) ->
  forallb (primitive_on n) gs = true -> flat_map (inline place) gs = gs.
Proof.
  intros Hp. induction gs as [|g gs IH]; simpl; intro H; [reflexivity|].
  apply andb_true_iff in H as [Hg Hgs].
  now rewrite (inline_primitive n), IH.
Qed.

Lemma forallb_map_gate (mk : nat -> instruction) n l :
  (forall q, primitive_on n (mk q) = (q <? n)%nat) ->
  Forall (fun i => (i < n)%nat) l -> forallb (primitive_on n) (map mk l) = true.
Proof.
  intros Hmk Hall. induction Hall as [|a l Ha _ IH]; simpl; [reflexivity|].
  rewrite Hmk, IH. now apply Nat.ltb_lt in Ha as ->.
Qed.

Lemma primitive_x_gates_from n bs i :
  (i + String.length bs <= n)%nat ->
  forallb (primitive_on n) (x_gates_from i bs) = true.
Proof.
  revert i; induction bs as [|b bs IH]; intros i Hlen; simpl in *; [reflexivity|].
  rewrite forallb_app, IH by lia.
  destruct (Ascii.eqb b "0"); simpl; [|reflexivity].
  now replace (i <? n)%nat with true by (symmetry; apply Nat.ltb_lt; lia).
Qed.

Lemma primitive_mcz_gates n :
  (1 <= n)%nat -> forallb (primitive_on n) (mcz_gates n) = true.
Proof.
  intro Hn. unfold mcz_gates. destruct (Nat.eqb_spec n 1) as [->|Hne]; [reflexivity|].
  simpl. replace (n - 1 <? n)%nat with true by (symmetry; apply Nat.ltb_lt; lia).
  simpl. rewrite !andb_true_r.
  apply forallb_forall. intros c Hc. apply in_seq in Hc. apply Nat.ltb_lt. lia.
Qed.

Lemma primitive_oracle_gates n bs :
  (1 <= n)%nat -> String.length bs = n ->
  forallb (primitive_on n) (oracle_gates n bs) = true.
Proof.
  intros Hn Hlen. unfold oracle_gates, x_gates.
  rewrite !forallb_app, primitive_mcz_gates by exact Hn.
  now rewrite primitive_x_gates_from by (simpl; lia).
Qed.

Lemma primitive_diffuser_gates n :
  (1 <= n)%nat -> forallb (primitive_on n) (diffuser_gates n) = true.
Proof.
  intro Hn. unfold diffuser_gates.
  rewrite !forallb_app, primitive_mcz_gates by exact Hn.
  rewrite !forallb_map_gate; try reflexivity; apply Forall_seq_lt; lia.
Qed.

Lemma nth_seq_0 n q : (q < n)%nat -> nth q (seq 0 n) 0%nat = q.
Proof. intro H. now rewrite seq_nth. Qed.

Lemma gate_sequence_blocks oracle diffuser n k :
  forallb (primitive_on n) (data oracle) = true ->
  forallb (primitive_on n) (data diffuser) = true ->
  flat_map (inline (fun q => q)) (grover_blocks oracle diffuser n k)
  = List.concat (repeat (data oracle ++ data diffuser) k).
Proof.
  intros Ho Hd. unfold grover_blocks.
  induction k as [|k IH]; simpl; [reflexivity|].
  rewrite IH.
  rewrite !(flat_map_inline_primitive n) by (auto using nth_seq_0).
  now rewrite <- app_assoc.
Qed.

(** ** Bits of integers *)

Lemma Ztestbit_of_nat a q :
  Z.testbit (Z.of_nat a) (Z.of_nat q) = Nat.testbit a q.
Proof.
  assert (H : Z.b2z (Z.testbit (Z.of_nat a) (Z.of_nat q))
              = Z.of_nat (Nat.b2n (Nat.testbit a q))).
  { rewrite Z.testbit_spec' by lia. rewrite Nat.testbit_spec'.
    rewrite Nat2Z.inj_mod, Nat2Z.inj_div, Nat2Z.inj_pow. reflexivity. }
  destruct (Z.testbit (Z.of_nat a) (Z.of_nat q)), (Nat.testbit a q);
    simpl in H; try reflexivity; lia.
Qed.

Lemma Ztestbit_above m n j :
  0 <= m < 2 ^ n -> n <= j -> Z.testbit m j = false.
Proof.
  intros Hm Hj.
  assert (Hn : 0 <= n).
  { destruct (Z.lt_ge_cases n 0) as [Hneg|]; [|assumption].
    rewrite (Z.pow_neg_r 2 n Hneg) in Hm. lia. }
  rewrite <- (Z.mod_small m (2 ^ n)) by exact Hm.
  apply Z.mod_pow2_bits_high. lia.
Qed.

(** * The iteration count recommended by [main.py] *)

(** ** Floats: shifting a mantissa *)

Lemma iter_pos_nat {A : Type} (f : A -> A) p x :
  @SpecFloat.iter_pos A f p x = Nat.iter (Pos.to_nat p) f x.
Proof.
  revert x. induction p as [p IH|p IH|]; intro x; simpl SpecFloat.iter_pos.
  - rewrite !IH, Pos2Nat.inj_xI, <- Nat.iter_succ_r.
    replace (S (2 * Pos.to_nat p)) with (Pos.to_nat p + S (Pos.to_nat p))%nat by lia.
    now rewrite Nat.iter_add.
  - rewrite !IH, Pos2Nat.inj_xO.
    replace (2 * Pos.to_nat p)%nat with (Pos.to_nat p + Pos.to_nat p)%nat by lia.
    now rewrite Nat.iter_add.
  - reflexivity.
Qed.

Lemma shr_1_zero k :
  Nat.iter k shr_1 (Build_shr_record 0 false true) = Build_shr_record 0 false true.
Proof. induction k as [|k IH]; [reflexivity|]. simpl. now rewrite IH. Qed.

Lemma shr_one_away k :
  (54 <= k)%nat ->
  Nat.iter k shr_1 (Build_shr_record 4503599627370496 false false)
  = Build_shr_record 0 false true.
Proof.
  intro Hk. replace k with ((k - 54) + 54)%nat by lia.
  rewrite Nat.iter_add.
  change (Nat.iter 54 shr_1 (Build_shr_record 4503599627370496 false false))
    with (Build_shr_record 0 false true).
  apply shr_1_zero.
Qed.

Lemma pow2_underflow n : n < -1075 -> pow2 n = PyFloat (S754_zero false).
Proof.
  intro Hn. unfold pow2. destruct (Z.leb_spec 0 n) as [H|_]; [lia|]. f_equal.
  change (SFone prec emax) with (S754_finite false 4503599627370496 (-52)).
  unfold SFldexp, binary_round.
  change (digits2_pos 4503599627370496) with 53%positive.
  assert (F : fexp prec emax (53 + (-52 + n)) = -1074).
  { unfold fexp, emin, prec, emax. lia. }
  rewrite F. unfold shl_align.
  destruct (-1074 - (-52 + n)) as [|p|p] eqn:E; try lia.
  unfold binary_round_aux, shr_fexp.
  change (Zdigits2 4503599627370496) with 53.
  rewrite F, E. unfold shr at 1.
  rewrite iter_pos_nat, shr_one_away by lia.
  replace (-52 + n + Z.pos p) with (-1074) by lia.
  reflexivity.
Qed.

Lemma recommend_iterations_underflow n :
  n < -1075 -> recommend_iterations n = Ok 1.
Proof.
  intro Hn. unfold recommend_iterations. rewrite (pow2_underflow n Hn). reflexivity.
Qed.






(** ** The recommendations one by one

    Between the underflow of [2 ** n] and the overflow of its conversion
    the arithmetic is run: [recommendation_check] holds of every [n] from
    -1075 to 1023. *)

Lemma in_range lo hi n : lo <= n < hi -> In n (range lo hi).
Proof.
  intro H. unfold range. apply in_map_iff.
  exists (Z.to_nat (n - lo)). split; [lia|]. apply in_seq. lia.
Qed.

Lemma recommendation_table :
  forallb recommendation_check (range (-1075) 1024) = true.
Proof. vm_compute. reflexivity. Qed.

Lemma recommendation_check_holds n :
  -1075 <= n < 1024 -> recommendation_check n = true.
Proof.
  intro H. pose proof recommendation_table as T.
  rewrite forallb_forall in T. apply T, in_range, H.
Qed.

(** Below 1024 the function returns; the value is at least 1, it is 1 for a
    negative [n], its square is at most [2^n] otherwise, and from [n = 1] on
    it is within the stated distance of [(pi/4) * sqrt(2^n)]. *)
Lemma recommend_iterations_returns n :
  n < 1024 ->
  exists r, recommend_iterations n = Ok r /\ 1 <= r
    /\ (n < 0 -> r = 1) /\ (0 <= n -> r * r <= 2 ^ n)
    /\ (1 <= n -> (400000 * r) ^ 2 <= 314160 ^ 2 * 2 ^ n
                  /\ 314159 ^ 2 * 2 ^ n <= (400000 * (r + 1)) ^ 2).
Proof.
  intro Hn. destruct (Z.lt_ge_cases n (-1075)) as [Hlow|Hlow].
  - exists 1. split; [apply recommend_iterations_underflow, Hlow|].
    split; [lia|]. split; [reflexivity|]. split; intro; lia.
  - assert (Hc := recommendation_check_holds n (conj Hlow Hn)).
    unfold recommendation_check in Hc.
    destruct (recommend_iterations (n - 1)) as [r0|]; [|discriminate].
    destruct (recommend_iterations n) as [r|]; [|discriminate].
    apply andb_prop in Hc. destruct Hc as [Hc H4].
    apply andb_prop in Hc. destruct Hc as [Hc H3].
    apply andb_prop in Hc. destruct Hc as [H1 H2].
    exists r. split; [reflexivity|]. split; [lia|].
    split; [|split].
    + intro. destruct (Z.ltb_spec n 0); lia.
    + intro. destruct (Z.ltb_spec n 0); lia.
    + intro. destruct (Z.ltb_spec n 1); [lia|].
      apply andb_prop in H4. destruct H4 as [H4 H5].
      apply Z.leb_le in H4, H5. split; assumption.
Qed.



(** ** The formula over the reals, for [n <= 6] *)




Lemma sqrt_4 : sqrt (2 ^ 2) = 2%R.
Proof. replace (2 ^ 2)%R with (2 * 2)%R by ring. apply sqrt_square. lra. Qed.










(** ** Amplitude arithmetic *)

Lemma rsqrt2_sqr : (2 * (rsqrt2 * rsqrt2) = 1)%R.
Proof.
  unfold rsqrt2. rewrite <- Rinv_mult, sqrt_sqrt by lra. lra.
Qed.

Lemma rsqrt2_pos : (0 < rsqrt2)%R.
Proof. unfold rsqrt2. apply Rinv_0_lt_compat, sqrt_lt_R0. lra. Qed.

Ltac Calg :=
  unfold Cadd, Csub, Copp, Cscale, Cmul, Cnorm2, RtoC, C0, C1; simpl;
  try apply f_equal2;
  try (ring || lra || (pose proof rsqrt2_sqr; nsatz)).

Lemma C_eta (a : C) : mkC (Re a) (Im a) = a.
Proof. destruct a; reflexivity. Qed.

Lemma Copp_involutive a : Copp (Copp a) = a.
Proof. destruct a; Calg. Qed.

Lemma hadamard_twice_0 a b :
  Cscale rsqrt2 (Cadd (Cscale rsqrt2 (Cadd a b)) (Cscale rsqrt2 (Csub a b))) = a.
Proof. destruct a, b; Calg. Qed.

Lemma hadamard_twice_1 a b :
  Cscale rsqrt2 (Csub (Cscale rsqrt2 (Cadd a b)) (Cscale rsqrt2 (Csub a b))) = b.
Proof. destruct a, b; Calg. Qed.

Lemma hadamard_swap_0 a b :
  Cscale rsqrt2 (Cadd (Cscale rsqrt2 (Csub a b)) (Cscale rsqrt2 (Cadd a b))) = a.
Proof. destruct a, b; Calg. Qed.

Lemma hadamard_swap_1 a b :
  Cscale rsqrt2 (Csub (Cscale rsqrt2 (Csub a b)) (Cscale rsqrt2 (Cadd a b)))
  = Copp b.
Proof. destruct a, b; Calg. Qed.

(** ** Bits of basis-state indices *)

Lemma testbit_flip k q m :
  Nat.testbit (flip_bit k q) m = xorb (Nat.testbit k m) (q =? m)%nat.
Proof. unfold flip_bit. now rewrite Nat.lxor_spec, Nat.pow2_bits_eqb. Qed.

Ltac bits :=
  apply Nat.bits_inj; intro;
  repeat first
    [ rewrite testbit_flip | rewrite Nat.setbit_eqb | rewrite Nat.clearbit_eqb
    | rewrite Nat.lxor_spec | rewrite Nat.ones_spec_low by lia
    | rewrite Nat.ones_spec_high by lia ];
  repeat match goal with
    | |- context [(?a =? ?b)%nat] => destruct (Nat.eqb_spec a b); subst
    end;
  simpl; try congruence;
  repeat match goal with
    | |- context [Nat.testbit ?a ?b] => destruct (Nat.testbit a b) eqn:?
    end;
  simpl in *; try congruence; try reflexivity.

Lemma clearbit_clearbit k q : Nat.clearbit (Nat.clearbit k q) q = Nat.clearbit k q.
Proof. bits. Qed.

Lemma setbit_clearbit k q : Nat.setbit (Nat.clearbit k q) q = Nat.setbit k q.
Proof. bits. Qed.

Lemma clearbit_setbit k q : Nat.clearbit (Nat.setbit k q) q = Nat.clearbit k q.
Proof. bits. Qed.

Lemma setbit_setbit k q : Nat.setbit (Nat.setbit k q) q = Nat.setbit k q.
Proof. bits. Qed.

Lemma testbit_clearbit_same k q : Nat.testbit (Nat.clearbit k q) q = false.
Proof. rewrite Nat.clearbit_eqb, Nat.eqb_refl. apply andb_false_r. Qed.

Lemma testbit_setbit_same k q : Nat.testbit (Nat.setbit k q) q = true.
Proof. now rewrite Nat.setbit_eqb, Nat.eqb_refl. Qed.

Lemma testbit_clearbit_other k q m :
  q <> m -> Nat.testbit (Nat.clearbit k q) m = Nat.testbit k m.
Proof.
  intro H. rewrite Nat.clearbit_eqb. destruct (Nat.eqb_spec q m); [easy|].
  apply andb_true_r.
Qed.

Lemma testbit_setbit_other k q m :
  q <> m -> Nat.testbit (Nat.setbit k q) m = Nat.testbit k m.
Proof.
  intro H. rewrite Nat.setbit_eqb. now destruct (Nat.eqb_spec q m).
Qed.

Lemma clearbit_id k q : Nat.testbit k q = false -> Nat.clearbit k q = k.
Proof. intro H. bits. Qed.

Lemma setbit_id k q : Nat.testbit k q = true -> Nat.setbit k q = k.
Proof. intro H. bits. Qed.

Lemma flip_clearbit k q : flip_bit (Nat.clearbit k q) q = Nat.setbit k q.
Proof. bits. Qed.

Lemma flip_setbit k q : flip_bit (Nat.setbit k q) q = Nat.clearbit k q.
Proof. bits. Qed.

Lemma flip_flip k q : flip_bit (flip_bit k q) q = k.
Proof. bits. Qed.

Lemma clearbit_comm k p q :
  Nat.clearbit (Nat.clearbit k p) q = Nat.clearbit (Nat.clearbit k q) p.
Proof. bits. Qed.

Lemma setbit_comm k p q :
  Nat.setbit (Nat.setbit k p) q = Nat.setbit (Nat.setbit k q) p.
Proof. bits. Qed.

Lemma setbit_clearbit_comm k p q :
  p <> q -> Nat.setbit (Nat.clearbit k p) q = Nat.clearbit (Nat.setbit k q) p.
Proof. intro H. bits. Qed.

Lemma forallb_ext_in {A} (f g : A -> bool) l :
  (forall x, In x l -> f x = g x) -> forallb f l = forallb g l.
Proof.
  induction l as [|a l IH]; simpl; intro H; [reflexivity|].
  rewrite H by now left. f_equal. apply IH. intros; apply H; now right.
Qed.

Lemma forallb_testbit_ext k k' cs :
  (forall c, In c cs -> Nat.testbit k' c = Nat.testbit k c) ->
  forallb (Nat.testbit k') cs = forallb (Nat.testbit k) cs.
Proof.
  induction cs as [|c cs IH]; simpl; intro H; [reflexivity|].
  rewrite H by now left. f_equal. apply IH. intros; apply H; now right.
Qed.

Lemma ones_pow2 n : Nat.ones n = (2 ^ n - 1)%nat.
Proof. rewrite Nat.ones_equiv. lia. Qed.

Lemma testbit_high k n m : (k < 2 ^ n)%nat -> (n <= m)%nat -> Nat.testbit k m = false.
Proof.
  intros Hk Hm. rewrite <- (Nat.mod_small k (2 ^ n)) by exact Hk.
  now apply Nat.mod_pow2_bits_high.
Qed.

Lemma all_ones_low n k :
  (k < 2 ^ n)%nat ->
  forallb (Nat.testbit k) (seq 0 n) = (k =? 2 ^ n - 1)%nat.
Proof.
  intro Hk. destruct (Nat.eqb_spec k (2 ^ n - 1)) as [->|Hne].
  - apply forallb_forall. intros q Hq. apply in_seq in Hq.
    rewrite <- ones_pow2.
    apply Nat.ones_spec_low. lia.
  - destruct (forallb (Nat.testbit k) (seq 0 n)) eqn:Hall; [|reflexivity].
    exfalso. apply Hne.
    rewrite <- ones_pow2.
    apply Nat.bits_inj. intro m.
    destruct (Nat.lt_ge_cases m n) as [Hlt|Hge].
    + rewrite Nat.ones_spec_low by lia.
      rewrite forallb_forall in Hall. apply Hall. apply in_seq. lia.
    + rewrite Nat.ones_spec_high by lia. now apply (testbit_high k n).
Qed.

(** ** Running gate sequences *)

Lemma run_app a b psi : run (a ++ b) psi = run b (run a psi).
Proof. unfold run. apply fold_left_app. Qed.

Lemma run_nil psi : run [] psi = psi.
Proof. reflexivity. Qed.

Lemma run_cons g gs psi :
  run (g :: gs) psi = run gs (apply_instruction (fun q => q) g psi).
Proof. reflexivity. Qed.

(** A composite instruction placed on qubits [0..n-1] acts as its
    definition. *)
Lemma apply_instruction_place_ext place place' n g psi :
  (forall q, (q < n)%nat -> place q = place' q) ->
  primitive_on n g = true ->
  apply_instruction place g psi = apply_instruction place' g psi.
Proof.
  intros Hp Hg. destruct g as [q|q|q|cs t|q c|lbl body w qargs];
    simpl in *; try discriminate;
    try (apply Nat.ltb_lt in Hg; now rewrite Hp); try reflexivity.
  apply andb_true_iff in Hg as [Hcs Ht]. apply Nat.ltb_lt in Ht.
  rewrite (Hp t) by exact Ht. f_equal.
  apply map_ext_in. intros c Hc. apply Hp.
  rewrite forallb_forall in Hcs. apply Nat.ltb_lt. now apply Hcs.
Qed.

Lemma fold_apply_place_ext place place' n gs psi :
  (forall q, (q < n)%nat -> place q = place' q) ->
  forallb (primitive_on n) gs = true ->
  fold_left (fun phi j => apply_instruction place j phi) gs psi
  = fold_left (fun phi j => apply_instruction place' j phi) gs psi.
Proof.
  intro Hp. revert psi. induction gs as [|g gs IH]; simpl; intros psi H; [reflexivity|].
  apply andb_true_iff in H as [Hg Hgs].
  rewrite (apply_instruction_place_ext place place' n) by assumption.
  now apply IH.
Qed.

Lemma run_composite lbl body n psi :
  forallb (primitive_on n) body = true ->
  run [Composite lbl body n (seq 0 n)] psi = run body psi.
Proof.
  intro H. unfold run at 1. simpl.
  apply (fold_apply_place_ext _ _ n); [|exact H].
  intros q Hq. now rewrite seq_nth.
Qed.

(** ** The multi-controlled Z *)

(** H on the target, multi-controlled X, H on the target: the amplitude of a
    basis state is negated where all controls and the target are 1. *)
Lemma h_mcx_h cs t psi k :
  ~ In t cs ->
  run [HGate t; MCXGate cs t; HGate t] psi k
  = if forallb (Nat.testbit k) cs && Nat.testbit k t then Copp (psi k) else psi k.
Proof.
  intro Hnin. unfold run. simpl. rewrite map_id.
  assert (Hc0 : forallb (Nat.testbit (Nat.clearbit k t)) cs = forallb (Nat.testbit k) cs).
  { apply forallb_testbit_ext. intros c Hc. apply testbit_clearbit_other. congruence. }
  assert (Hc1 : forallb (Nat.testbit (Nat.setbit k t)) cs = forallb (Nat.testbit k) cs).
  { apply forallb_testbit_ext. intros c Hc. apply testbit_setbit_other. congruence. }
  unfold apply_h at 1. cbv zeta. unfold apply_mcx. rewrite Hc0, Hc1.
  rewrite flip_clearbit, flip_setbit.
  unfold apply_h. cbv zeta.
  rewrite testbit_clearbit_same, testbit_setbit_same.
  rewrite clearbit_clearbit, setbit_clearbit, clearbit_setbit, setbit_setbit.
  destruct (forallb (Nat.testbit k) cs); destruct (Nat.testbit k t) eqn:Hb; simpl.
  - rewrite hadamard_swap_1. now rewrite setbit_id.
  - rewrite hadamard_swap_0. now rewrite clearbit_id.
  - rewrite hadamard_twice_1. now rewrite setbit_id.
  - rewrite hadamard_twice_0. now rewrite clearbit_id.
Qed.

(** What [mcz_gates n] does to any state: it negates the amplitudes of the
    basis states whose qubits [0..n-1] are all 1. *)
Lemma run_mcz_gates n psi k :
  (1 <= n)%nat ->
  run (mcz_gates n) psi k
  = if forallb (Nat.testbit k) (seq 0 n) then Copp (psi k) else psi k.
Proof.
  intro Hn. unfold mcz_gates. destruct (Nat.eqb_spec n 1) as [->|Hne].
  - unfold run. simpl. unfold apply_z. now rewrite andb_true_r.
  - rewrite h_mcx_h by (intro Hin; apply in_seq in Hin; lia).
    assert (Hseq : seq 0 n = seq 0 (n - 1) ++ [(n - 1)%nat]).
    { replace n with (S (n - 1)) at 1 by lia. now rewrite seq_S. }
    rewrite Hseq, forallb_app. simpl. now rewrite andb_true_r.
Qed.

(** ** Layers of X gates *)

Lemma run_x_layer qs psi k : run (map XGate qs) psi k = psi (flips qs k).
Proof.
  revert psi k; induction qs as [|q qs IH]; intros psi k; [reflexivity|].
  simpl map. rewrite run_cons, IH. reflexivity.
Qed.

Lemma testbit_flips qs k m :
  Nat.testbit (flips qs k) m = xorb (Nat.testbit k m) (parity m qs).
Proof.
  induction qs as [|q qs IH]; simpl.
  - now rewrite xorb_false_r.
  - rewrite testbit_flip, IH.
    destruct (Nat.testbit k m), (parity m qs), (q =? m)%nat; reflexivity.
Qed.

Lemma flips_involutive qs k : flips qs (flips qs k) = k.
Proof.
  apply Nat.bits_inj. intro m. rewrite !testbit_flips.
  destruct (Nat.testbit k m), (parity m qs); reflexivity.
Qed.

Lemma parity_seq_above a k m : (m < a)%nat -> parity m (seq a k) = false.
Proof.
  revert a; induction k as [|k IH]; intros a H; simpl; [reflexivity|].
  rewrite IH by lia. destruct (Nat.eqb_spec a m); [lia | reflexivity].
Qed.

Lemma parity_seq a k m :
  parity m (seq a k) = ((a <=? m)%nat && (m <? a + k)%nat).
Proof.
  revert a; induction k as [|k IH]; intro a; simpl.
  - destruct (Nat.leb_spec a m), (Nat.ltb_spec m (a + 0)); simpl; try reflexivity; lia.
  - rewrite IH.
    destruct (Nat.eqb_spec a m), (Nat.leb_spec a m), (Nat.leb_spec (S a) m),
      (Nat.ltb_spec m (S a + k)), (Nat.ltb_spec m (a + S k)); simpl;
      try reflexivity; lia.
Qed.

(** X gates, the multi-controlled Z, the same X gates again: the amplitude
    of the one basis state that the X gates turn into all ones is negated. *)
Lemma run_x_mcz_x qs n psi k :
  (1 <= n)%nat ->
  run (map XGate qs ++ mcz_gates n ++ map XGate qs) psi k
  = if forallb (fun q => xorb (Nat.testbit k q) (parity q qs)) (seq 0 n)
    then Copp (psi k) else psi k.
Proof.
  intro Hn. rewrite !run_app, run_x_layer, run_mcz_gates by exact Hn.
  rewrite run_x_layer, flips_involutive.
  replace (forallb (Nat.testbit (flips qs k)) (seq 0 n))
    with (forallb (fun q => xorb (Nat.testbit k q) (parity q qs)) (seq 0 n)).
  - reflexivity.
  - apply forallb_ext_in. intros q _. now rewrite testbit_flips.
Qed.

Lemma run_flip_zero_state n psi :
  (1 <= n)%nat ->
  run (map XGate (seq 0 n) ++ mcz_gates n ++ map XGate (seq 0 n)) psi
  = flip_zero_state n psi.
Proof.
  intro Hn. apply functional_extensionality. intro k.
  rewrite run_x_mcz_x by exact Hn. unfold flip_zero_state, lowzero.
  replace (forallb (fun q => xorb (Nat.testbit k q) (parity q (seq 0 n))) (seq 0 n))
    with (forallb (fun q => negb (Nat.testbit k q)) (seq 0 n)); [reflexivity|].
  apply forallb_ext_in. intros q Hq. apply in_seq in Hq.
  rewrite parity_seq.
  destruct (Nat.leb_spec 0 q), (Nat.ltb_spec q (0 + n)); try lia.
  simpl. now destruct (Nat.testbit k q).
Qed.

Lemma flip_zero_state_involutive n psi :
  flip_zero_state n (flip_zero_state n psi) = psi.
Proof.
  apply functional_extensionality. intro k. unfold flip_zero_state.
  destruct (lowzero n k); [apply Copp_involutive | reflexivity].
Qed.

Lemma flip_zero_state_mask n psi :
  flip_zero_state n psi = state_add psi (state_scale (-2) (mask n psi)).
Proof.
  apply functional_extensionality. intro k.
  unfold flip_zero_state, state_add, state_scale, mask.
  destruct (lowzero n k); destruct (psi k); Calg.
Qed.

(** ** Layers of H gates *)

Lemma h_layer_S m psi : h_layer (S m) psi = apply_h m (h_layer m psi).
Proof. unfold h_layer. now rewrite seq_S, map_app, run_app. Qed.

Lemma h_layer_0 psi : h_layer 0 psi = psi.
Proof. reflexivity. Qed.

Lemma apply_h_involutive q psi : apply_h q (apply_h q psi) = psi.
Proof.
  apply functional_extensionality. intro k. unfold apply_h. cbv zeta.
  rewrite testbit_clearbit_same, testbit_setbit_same.
  rewrite clearbit_clearbit, setbit_clearbit, clearbit_setbit, setbit_setbit.
  destruct (Nat.testbit k q) eqn:Hb.
  - rewrite hadamard_twice_1. now rewrite setbit_id.
  - rewrite hadamard_twice_0. now rewrite clearbit_id.
Qed.

Lemma apply_h_comm p q psi :
  p <> q -> apply_h p (apply_h q psi) = apply_h q (apply_h p psi).
Proof.
  intro Hpq. apply functional_extensionality. intro k. unfold apply_h. cbv zeta.
  rewrite !testbit_clearbit_other, !testbit_setbit_other by congruence.
  rewrite (clearbit_comm k q p).
  rewrite (setbit_comm k q p).
  rewrite (setbit_clearbit_comm k p q) by congruence.
  rewrite (setbit_clearbit_comm k q p) by congruence.
  destruct (Nat.testbit k p), (Nat.testbit k q);
    destruct (psi (Nat.clearbit (Nat.clearbit k p) q)),
             (psi (Nat.clearbit (Nat.setbit k q) p)),
             (psi (Nat.clearbit (Nat.setbit k p) q)),
             (psi (Nat.setbit (Nat.setbit k p) q)); Calg.
Qed.

Lemma h_layer_apply_h_comm m t psi :
  (m <= t)%nat -> apply_h t (h_layer m psi) = h_layer m (apply_h t psi).
Proof.
  intro Hmt. induction m as [|m IH]; [reflexivity|].
  rewrite !h_layer_S, apply_h_comm by lia. now rewrite IH by lia.
Qed.

Lemma h_layer_involutive m psi : h_layer m (h_layer m psi) = psi.
Proof.
  revert psi; induction m as [|m IH]; intro psi; [reflexivity|].
  rewrite !h_layer_S, <- h_layer_apply_h_comm by lia.
  now rewrite apply_h_involutive, IH.
Qed.

Lemma apply_h_add q psi phi :
  apply_h q (state_add psi phi) = state_add (apply_h q psi) (apply_h q phi).
Proof.
  apply functional_extensionality. intro k. unfold apply_h, state_add. cbv zeta.
  destruct (Nat.testbit k q); Calg.
Qed.

Lemma apply_h_scale q r psi :
  apply_h q (state_scale r psi) = state_scale r (apply_h q psi).
Proof.
  apply functional_extensionality. intro k. unfold apply_h, state_scale. cbv zeta.
  destruct (Nat.testbit k q); Calg.
Qed.

Lemma h_layer_add m psi phi :
  h_layer m (state_add psi phi) = state_add (h_layer m psi) (h_layer m phi).
Proof.
  induction m as [|m IH]; [reflexivity|].
  now rewrite !h_layer_S, IH, apply_h_add.
Qed.

Lemma h_layer_scale m r psi :
  h_layer m (state_scale r psi) = state_scale r (h_layer m psi).
Proof.
  induction m as [|m IH]; [reflexivity|].
  now rewrite !h_layer_S, IH, apply_h_scale.
Qed.

Lemma lowzero_S m k : lowzero (S m) k = lowzero m k && negb (Nat.testbit k m).
Proof. unfold lowzero. rewrite seq_S, forallb_app. simpl. now rewrite andb_true_r. Qed.

Lemma lowzero_testbit m k q :
  lowzero m k = true -> (q < m)%nat -> Nat.testbit k q = false.
Proof.
  unfold lowzero. rewrite forallb_forall. intros H Hq.
  apply negb_true_iff, H, in_seq. lia.
Qed.

Lemma lowzero_intro m k :
  (forall q, (q < m)%nat -> Nat.testbit k q = false) -> lowzero m k = true.
Proof.
  intro H. apply forallb_forall. intros q Hq. apply in_seq in Hq.
  apply negb_true_iff, H. lia.
Qed.

Lemma testbit_clearlow m k i :
  Nat.testbit (clearlow m k) i = Nat.testbit k i && (m <=? i)%nat.
Proof.
  unfold clearlow. rewrite Nat.ldiff_spec.
  destruct (Nat.leb_spec m i).
  - now rewrite Nat.ones_spec_high by lia.
  - rewrite Nat.ones_spec_low by lia. simpl. now rewrite andb_false_r.
Qed.

Lemma clearlow_0 k : clearlow 0 k = k.
Proof. apply Nat.bits_inj. intro i. rewrite testbit_clearlow. simpl. apply andb_true_r. Qed.

Lemma clearlow_small n k : (k < 2 ^ n)%nat -> clearlow n k = 0%nat.
Proof.
  intro Hk. apply Nat.bits_inj. intro i. rewrite testbit_clearlow, Nat.bits_0.
  destruct (Nat.leb_spec n i); [|apply andb_false_r].
  now rewrite (testbit_high k n i).
Qed.

Lemma clearlow_clearbit m k : clearlow m (Nat.clearbit k m) = clearlow (S m) k.
Proof.
  apply Nat.bits_inj. intro i. rewrite !testbit_clearlow, Nat.clearbit_eqb.
  destruct (Nat.eqb_spec m i), (Nat.leb_spec m i), (Nat.leb_spec (S m) i);
    simpl; try lia; try reflexivity; now rewrite ?andb_false_r, ?andb_true_r.
Qed.

Lemma lowzero_clearlow_setbit m k :
  lowzero (S m) (clearlow m (Nat.setbit k m)) = false.
Proof.
  rewrite lowzero_S, testbit_clearlow, testbit_setbit_same, Nat.leb_refl.
  simpl. apply andb_false_r.
Qed.

Lemma lowzero_0 n : lowzero n 0 = true.
Proof. apply lowzero_intro. intros. apply Nat.bits_0. Qed.

(** On a state that lives on the basis states with qubits [0..m-1] all 0,
    the H layer spreads each amplitude evenly over those qubits. *)
Lemma h_layer_supported m chi :
  (forall k, lowzero m k = false -> chi k = C0) ->
  forall k, h_layer m chi k = Cscale (rsqrt2 ^ m) (chi (clearlow m k)).
Proof.
  induction m as [|m IH]; intros Hsupp k.
  - rewrite h_layer_0, clearlow_0. destruct (chi k); Calg.
  - assert (Hsupp' : forall k', lowzero m k' = false -> chi k' = C0).
    { intros k' Hk'. apply Hsupp. rewrite lowzero_S, Hk'. reflexivity. }
    rewrite h_layer_S. unfold apply_h. cbv zeta.
    rewrite !IH by exact Hsupp'.
    rewrite (Hsupp (clearlow m (Nat.setbit k m))) by apply lowzero_clearlow_setbit.
    rewrite clearlow_clearbit.
    destruct (Nat.testbit k m); destruct (chi (clearlow (S m) k)); Calg.
Qed.

Lemma amplitude_sum_ext f g m :
  (forall j, (j < m)%nat -> f j = g j) -> amplitude_sum f m = amplitude_sum g m.
Proof.
  induction m as [|m IH]; intro H; simpl; [reflexivity|].
  rewrite IH by (intros; apply H; lia). now rewrite H by lia.
Qed.

Lemma amplitude_sum_add f a b :
  amplitude_sum f (a + b)
  = Cadd (amplitude_sum f a) (amplitude_sum (fun j => f (a + j)%nat) b).
Proof.
  induction b as [|b IH].
  - rewrite Nat.add_0_r. simpl. destruct (amplitude_sum f a); Calg.
  - rewrite Nat.add_succ_r. simpl. rewrite IH.
    destruct (amplitude_sum f a), (amplitude_sum (fun j => f (a + j)%nat) b),
      (f (a + b)%nat); Calg.
Qed.

Lemma setbit_add k m : Nat.testbit k m = false -> Nat.setbit k m = (k + 2 ^ m)%nat.
Proof.
  intro Hb. rewrite Nat.add_nocarry_lxor.
  - apply Nat.bits_inj. intro i.
    rewrite Nat.setbit_eqb, Nat.lxor_spec, Nat.pow2_bits_eqb.
    destruct (Nat.eqb_spec m i) as [<-|]; [rewrite Hb; reflexivity|].
    simpl. now rewrite xorb_false_r.
  - apply Nat.bits_inj. intro i.
    rewrite Nat.land_spec, Nat.pow2_bits_eqb, Nat.bits_0.
    destruct (Nat.eqb_spec m i) as [<-|]; [rewrite Hb; reflexivity|].
    apply andb_false_r.
Qed.

(** At a basis state with qubits [0..m-1] all 0, the H layer yields the sum
    of the amplitudes over all values of those qubits, scaled. *)
Lemma h_layer_sum m psi k :
  lowzero m k = true ->
  h_layer m psi k
  = Cscale (rsqrt2 ^ m) (amplitude_sum (fun j => psi (k + j)%nat) (2 ^ m)).
Proof.
  revert k; induction m as [|m IH]; intros k Hk.
  - rewrite h_layer_0. simpl. rewrite Nat.add_0_r. destruct (psi k); Calg.
  - rewrite lowzero_S in Hk. apply andb_true_iff in Hk as [Hlow Hb].
    apply negb_true_iff in Hb.
    rewrite h_layer_S. unfold apply_h. cbv zeta. rewrite Hb.
    rewrite clearbit_id by exact Hb.
    assert (Hlow' : lowzero m (Nat.setbit k m) = true).
    { apply lowzero_intro. intros q Hq.
      rewrite testbit_setbit_other by lia. now apply (lowzero_testbit m). }
    rewrite (IH k Hlow), (IH _ Hlow'), setbit_add by exact Hb.
    replace (2 ^ S m)%nat with (2 ^ m + 2 ^ m)%nat by (simpl; lia).
    rewrite amplitude_sum_add.
    rewrite (amplitude_sum_ext (fun j => psi (k + (2 ^ m + j))%nat)
                               (fun j => psi (k + 2 ^ m + j)%nat))
      by (intros; f_equal; lia).
    destruct (amplitude_sum (fun j => psi (k + j)%nat) (2 ^ m)),
      (amplitude_sum (fun j => psi (k + 2 ^ m + j)%nat) (2 ^ m)); Calg.
Qed.

Lemma rsqrt2_pow_sqr n : (rsqrt2 ^ n * rsqrt2 ^ n = / 2 ^ n)%R.
Proof.
  rewrite <- Rpow_mult_distr.
  replace (rsqrt2 * rsqrt2)%R with (/ 2)%R by (pose proof rsqrt2_sqr; lra).
  now rewrite pow_inv.
Qed.

(** ** The diffuser *)

Lemma run_diffuser_gates n psi :
  (1 <= n)%nat ->
  run (diffuser_gates n) psi = h_layer n (flip_zero_state n (h_layer n psi)).
Proof.
  intro Hn. unfold diffuser_gates.
  rewrite run_app.
  rewrite (app_assoc (map XGate (seq 0 n))), (app_assoc _ (map XGate (seq 0 n))).
  rewrite run_app, <- app_assoc.
  now rewrite run_flip_zero_state by exact Hn.
Qed.

Lemma diffuser_gates_involutive n psi :
  (1 <= n)%nat -> run (diffuser_gates n) (run (diffuser_gates n) psi) = psi.
Proof.
  intro Hn. rewrite !run_diffuser_gates by exact Hn.
  now rewrite h_layer_involutive, flip_zero_state_involutive, h_layer_involutive.
Qed.

(** One application maps each amplitude [a_k] to [a_k - 2 * mean], the
    reflection about the mean with the opposite sign. *)
Lemma diffuser_gates_reflect n psi k :
  (1 <= n)%nat -> (k < 2 ^ n)%nat ->
  run (diffuser_gates n) psi k = Copp (reflect_about_mean n psi k).
Proof.
  intros Hn Hk. rewrite run_diffuser_gates by exact Hn.
  rewrite flip_zero_state_mask, h_layer_add, h_layer_scale, h_layer_involutive.
  unfold state_add, state_scale.
  rewrite h_layer_supported
    by (intros k' Hk'; unfold mask; now rewrite Hk').
  rewrite clearlow_small by exact Hk.
  unfold mask at 1. rewrite lowzero_0.
  rewrite h_layer_sum by apply lowzero_0.
  change (fun j => psi (0 + j)%nat) with psi.
  unfold reflect_about_mean, mean. rewrite <- rsqrt2_pow_sqr.
  destruct (psi k), (amplitude_sum psi (2 ^ n)); Calg.
Qed.

Lemma equal_up_to_phase_refl n psi : equal_up_to_phase n psi psi.
Proof. exists C1. split; [Calg | intros k _; destruct (psi k); Calg]. Qed.

Lemma equal_up_to_phase_opp n psi phi :
  (forall k, (k < 2 ^ n)%nat -> psi k = Copp (phi k)) ->
  equal_up_to_phase n psi phi.
Proof.
  intro H. exists (Copp C1). split; [Calg|].
  intros k Hk. rewrite (H k Hk). destruct (phi k); Calg.
Qed.

(** ** The oracle *)

Lemma x_gates_from_map i bs :
  x_gates_from i bs = map XGate (zero_positions_from i bs).
Proof.
  revert i; induction bs as [|b bs IH]; intro i; simpl; [reflexivity|].
  rewrite map_app, IH. now destruct (Ascii.eqb b "0").
Qed.

Lemma parity_app m a b : parity m (a ++ b) = xorb (parity m a) (parity m b).
Proof.
  induction a as [|q a IH]; simpl; [reflexivity|].
  rewrite IH. now rewrite xorb_assoc.
Qed.

Lemma parity_zero_positions_below bs i q :
  (q < i)%nat -> parity q (zero_positions_from i bs) = false.
Proof.
  revert i; induction bs as [|b bs IH]; intros i Hq; simpl; [reflexivity|].
  rewrite parity_app, IH by lia.
  destruct (Ascii.eqb b "0"); simpl; [|reflexivity].
  destruct (Nat.eqb_spec i q); [lia | reflexivity].
Qed.

Lemma parity_zero_positions bs i j :
  parity (i + j) (zero_positions_from i bs)
  = match String.get j bs with
    | Some c => Ascii.eqb c "0"
    | None => false
    end.
Proof.
  revert i j; induction bs as [|b bs IH]; intros i j; simpl; [reflexivity|].
  rewrite parity_app. destruct j as [|j].
  - rewrite Nat.add_0_r, parity_zero_positions_below by lia.
    destruct (Ascii.eqb b "0"); simpl; [|reflexivity].
    now rewrite Nat.eqb_refl.
  - replace (i + S j)%nat with (S i + j)%nat by lia. rewrite IH.
    destruct (Ascii.eqb b "0"); simpl; [|reflexivity].
    destruct (Nat.eqb_spec i (S (i + j))); [lia|]. reflexivity.
Qed.

Lemma testbit_state_of_bits bs q :
  Nat.testbit (state_of_bits bs) q
  = match String.get q bs with
    | Some c => Ascii.eqb c "1"
    | None => false
    end.
Proof.
  revert q; induction bs as [|b bs IH]; intro q.
  - simpl. apply Nat.bits_0.
  - cbn [state_of_bits String.get]. destruct q as [|q].
    + apply Nat.testbit_0_r.
    + rewrite Nat.testbit_succ_r. apply IH.
Qed.

Lemma state_of_bits_lt bs : (state_of_bits bs < 2 ^ String.length bs)%nat.
Proof.
  induction bs as [|b bs IH]; simpl; [lia|].
  destruct (Ascii.eqb b "1"); simpl; lia.
Qed.

Lemma eq_of_low_bits n k j :
  (k < 2 ^ n)%nat -> (j < 2 ^ n)%nat ->
  (forall q, (q < n)%nat -> Nat.testbit k q = Nat.testbit j q) -> k = j.
Proof.
  intros Hk Hj H. apply Nat.bits_inj. intro q.
  destruct (Nat.lt_ge_cases q n) as [Hq|Hq]; [now apply H|].
  now rewrite (testbit_high k n q), (testbit_high j n q).
Qed.

(** The oracle's gates negate the amplitude of the basis state in which
    qubit [i] holds character [i] of the bit text, and no other. *)
Lemma run_oracle_gates n bs psi k :
  (1 <= n)%nat -> String.length bs = n ->
  (forall j, (j < n)%nat -> exists b, String.get j bs = Some (bitchar b)) ->
  (k < 2 ^ n)%nat ->
  run (oracle_gates n bs) psi k
  = if (k =? state_of_bits bs)%nat then Copp (psi k) else psi k.
Proof.
  intros Hn Hlen Hbin Hk. unfold oracle_gates, x_gates.
  rewrite x_gates_from_map, run_x_mcz_x by exact Hn.
  assert (Hbit : forall q, (q < n)%nat ->
            xorb (Nat.testbit k q) (parity q (zero_positions_from 0 bs))
            = Bool.eqb (Nat.testbit k q) (Nat.testbit (state_of_bits bs) q)).
  { intros q Hq. rewrite testbit_state_of_bits.
    change q with (0 + q)%nat at 2. rewrite (parity_zero_positions bs 0 q).
    destruct (Hbin q Hq) as [b ->].
    destruct b, (Nat.testbit k q); reflexivity. }
  destruct (Nat.eqb_spec k (state_of_bits bs)) as [->|Hne].
  - replace (forallb _ (seq 0 n)) with true; [reflexivity|].
    symmetry. apply forallb_forall. intros q Hq. apply in_seq in Hq.
    rewrite Hbit by lia. apply eqb_reflx.
  - destruct (forallb _ (seq 0 n)) eqn:Hall; [|reflexivity].
    exfalso. apply Hne. apply (eq_of_low_bits n); [exact Hk | | ].
    + rewrite <- Hlen. apply state_of_bits_lt.
    + intros q Hq. rewrite forallb_forall in Hall.
      specialize (Hall q). rewrite Hbit in Hall by exact Hq.
      apply eqb_prop, Hall, in_seq. lia.
Qed.

(** ** The uniform superposition *)

Lemma rsqrt2_pow n : (rsqrt2 ^ n = / sqrt (2 ^ n))%R.
Proof.
  induction n as [|n IH].
  - simpl. rewrite sqrt_1. lra.
  - simpl. rewrite IH. unfold rsqrt2.
    rewrite sqrt_mult by (try lra; apply pow_le; lra).
    now rewrite Rinv_mult.
Qed.

Lemma clearlow_zero_iff n k : clearlow n k = 0%nat <-> (k < 2 ^ n)%nat.
Proof.
  split; [|apply clearlow_small].
  intro H. replace k with (k mod 2 ^ n)%nat.
  - apply Nat.mod_upper_bound. apply Nat.pow_nonzero. lia.
  - apply Nat.bits_inj. intro i.
    destruct (Nat.lt_ge_cases i n) as [Hi|Hi].
    + now apply Nat.mod_pow2_bits_low.
    + rewrite Nat.mod_pow2_bits_high by exact Hi.
      assert (Hb : Nat.testbit (clearlow n k) i = false)
        by (rewrite H; apply Nat.bits_0).
      rewrite testbit_clearlow in Hb.
      destruct (Nat.leb_spec n i); [|lia].
      now rewrite andb_true_r in Hb.
Qed.

(** H on every qubit takes basis state 0 to the uniform superposition. *)
Lemma h_layer_initial n : h_layer n initial_state = uniform n.
Proof.
  apply functional_extensionality. intro k.
  rewrite h_layer_supported.
  - unfold initial_state, uniform. rewrite rsqrt2_pow.
    destruct (Nat.ltb_spec k (2 ^ n)) as [Hk|Hk].
    + rewrite clearlow_small by exact Hk. simpl. Calg.
    + destruct (Nat.eqb_spec (clearlow n k) 0) as [H0|_].
      * apply clearlow_zero_iff in H0. lia.
      * Calg.
  - intros k' Hk'. unfold initial_state.
    destruct (Nat.eqb_spec k' 0) as [->|_]; [|reflexivity].
    now rewrite lowzero_0 in Hk'.
Qed.

Lemma uniform_norm2 n k :
  (k < 2 ^ n)%nat -> Cnorm2 (uniform n k) = (/ 2 ^ n)%R.
Proof.
  intro Hk. unfold uniform.
  destruct (Nat.ltb_spec k (2 ^ n)); [|lia].
  rewrite <- rsqrt2_pow, <- rsqrt2_pow_sqr. Calg.
Qed.

Lemma Cnorm2_opp a : Cnorm2 (Copp a) = Cnorm2 a.
Proof. destruct a; Calg. Qed.

Lemma uniform_nonzero n k : (k < 2 ^ n)%nat -> Copp (uniform n k) <> uniform n k.
Proof.
  intros Hk H. unfold uniform in H.
  destruct (Nat.ltb_spec k (2 ^ n)); [|lia].
  rewrite <- rsqrt2_pow in H. unfold Copp, RtoC in H. simpl in H.
  injection H as H.
  assert (0 < rsqrt2 ^ n)%R by (apply pow_lt, rsqrt2_pos). lra.
Qed.

Lemma run_measure_gates n psi : run (measure_gates n) psi = psi.
Proof.
  unfold measure_gates. generalize (seq 0 n). intro l. revert psi.
  induction l as [|a l IH]; intro psi; [reflexivity|].
  simpl map. rewrite run_cons. apply IH.
Qed.

Lemma classical_value_measure_2 k :
  (k < 4)%nat -> classical_value (measure_gates 2) k = k.
Proof.
  intro Hk. do 4 (destruct k as [|k]; [reflexivity|]). lia.
Qed.

(** ** The builders' circuits as maps on states *)

Lemma mcz_gates_cases n :
  (1 <= n)%nat ->
  mcz_gates n
  = if (Z.of_nat n =? 1)%Z then [ZGate 0]
    else [HGate (n - 1); MCXGate (seq 0 (n - 1)) (n - 1); HGate (n - 1)].
Proof.
  intro Hn. unfold mcz_gates.
  destruct (Nat.eqb_spec n 1), (Z.eqb_spec (Z.of_nat n) 1); try reflexivity; lia.
Qed.

Lemma run_mcz_gates_low n psi k :
  (1 <= n)%nat -> (k < 2 ^ n)%nat ->
  run (mcz_gates n) psi k = if (k =? 2 ^ n - 1)%nat then Copp (psi k) else psi k.
Proof.
  intros Hn Hk. rewrite run_mcz_gates by exact Hn. now rewrite all_ones_low.
Qed.

(** The oracle [build_oracle] returns negates the amplitude of exactly one
    basis state: the one whose bit [q] is bit [n-1-q] of the marked index. *)
Lemma build_oracle_run (n : nat) (m : Z) :
  (1 <= n)%nat -> 0 <= m < 2 ^ Z.of_nat n ->
  exists oracle bs,
    build_oracle (Z.of_nat n) m = Ok oracle
    /\ index_to_bitstring m (Z.of_nat n) = Ok bs
    /\ data oracle = oracle_gates n bs
    /\ (state_of_bits bs < 2 ^ n)%nat
    /\ (forall q, (q < n)%nat ->
          Nat.testbit (state_of_bits bs) q = Z.testbit m (Z.of_nat (n - 1 - q)))
    /\ forall psi k, (k < 2 ^ n)%nat ->
         run_circuit oracle psi k
         = if (k =? state_of_bits bs)%nat then Copp (psi k) else psi k.
Proof.
  intros Hn Hm.
  destruct (index_to_bitstring_in_range m (Z.of_nat n)) as (bs & Hbs & Hlen & Hget);
    [lia | exact Hm |].
  rewrite Nat2Z.id in Hlen, Hget.
  destruct (build_oracle_ok n m Hn Hm) as (bs' & Hbs' & _ & Ho).
  rewrite Hbs in Hbs'. injection Hbs' as <-.
  eexists. exists bs. split; [exact Ho|]. split; [exact Hbs|].
  split; [reflexivity|]. split; [rewrite <- Hlen; apply state_of_bits_lt|]. split.
  - intros q Hq. rewrite testbit_state_of_bits, (Hget q Hq).
    replace (Z.of_nat n - 1 - Z.of_nat q) with (Z.of_nat (n - 1 - q)) by lia.
    now destruct (Z.testbit m (Z.of_nat (n - 1 - q))).
  - intros psi k Hk. unfold run_circuit. simpl data.
    apply run_oracle_gates; try assumption.
    intros j Hj. eexists. apply (Hget j Hj).
Qed.

Lemma build_diffuser_run (n : nat) :
  (1 <= n)%nat ->
  exists diffuser,
    build_diffuser (Z.of_nat n) = Ok diffuser
    /\ data diffuser = diffuser_gates n
    /\ (forall psi, run_circuit diffuser (run_circuit diffuser psi) = psi)
    /\ forall psi k, (k < 2 ^ n)%nat ->
         run_circuit diffuser psi k = Copp (reflect_about_mean n psi k).
Proof.
  intro Hn. eexists. split; [apply build_diffuser_ok; exact Hn|].
  split; [reflexivity|]. unfold run_circuit. simpl data. split.
  - intro psi. now apply diffuser_gates_involutive.
  - intros psi k Hk. now apply diffuser_gates_reflect.
Qed.

(** * Basis states by index *)

Lemma basis_state_lt n j : (basis_state n j < 2 ^ n)%nat.
Proof.
  induction n as [|n IH]; [simpl; lia|].
  cbn [basis_state]. rewrite Nat.pow_succ_r'.
  destruct (Z.testbit j (Z.of_nat n)); simpl Nat.b2n; lia.
Qed.

(** Qubit [q] of [|j>] holds the digit of weight [2^(n-1-q)] of [j]. *)
Lemma testbit_basis_state n j q :
  (q < n)%nat ->
  Nat.testbit (basis_state n j) q = Z.testbit j (Z.of_nat (n - 1 - q)).
Proof.
  revert q. induction n as [|n IH]; intros q Hq; [lia|].
  cbn [basis_state]. destruct q as [|q].
  - rewrite Nat.testbit_0_r. f_equal. lia.
  - rewrite Nat.testbit_succ_r, IH by lia. f_equal. lia.
Qed.

Lemma basis_state_inj n j1 j2 :
  0 <= j1 < 2 ^ Z.of_nat n -> 0 <= j2 < 2 ^ Z.of_nat n ->
  basis_state n j1 = basis_state n j2 -> j1 = j2.
Proof.
  intros H1 H2 E. apply Z.bits_inj'. intros i Hi.
  destruct (Z.lt_ge_cases i (Z.of_nat n)) as [Hlt|Hge].
  - pose proof (testbit_basis_state n j1 (Z.to_nat (Z.of_nat n - 1 - i))) as B1.
    pose proof (testbit_basis_state n j2 (Z.to_nat (Z.of_nat n - 1 - i))) as B2.
    replace (Z.of_nat (n - 1 - Z.to_nat (Z.of_nat n - 1 - i))) with i in B1, B2 by lia.
    rewrite <- B1, <- B2 by lia. now rewrite E.
  - now rewrite (Ztestbit_above j1 (Z.of_nat n) i), (Ztestbit_above j2 (Z.of_nat n) i).
Qed.

(** Every position of the state vector is the basis state of one index. *)
Lemma basis_state_onto n k :
  (k < 2 ^ n)%nat ->
  exists j, 0 <= j < 2 ^ Z.of_nat n /\ basis_state n j = k.
Proof.
  intro Hk. exists (Z.of_nat (basis_state n (Z.of_nat k))). split.
  - pose proof (basis_state_lt n (Z.of_nat k)) as H.
    apply Nat2Z.inj_lt in H. rewrite Nat2Z.inj_pow in H. simpl Z.of_nat in H. lia.
  - apply (eq_of_low_bits n); [apply basis_state_lt | exact Hk |].
    intros q Hq. rewrite testbit_basis_state by exact Hq.
    rewrite Ztestbit_of_nat, testbit_basis_state by lia.
    replace (n - 1 - (n - 1 - q))%nat with q by lia.
    apply Ztestbit_of_nat.
Qed.

(** The state the oracle negates is [|marked_index>]. *)
Lemma build_oracle_basis_state (n : nat) (m : Z) :
  (1 <= n)%nat -> 0 <= m < 2 ^ Z.of_nat n ->
  exists oracle,
    build_oracle (Z.of_nat n) m = Ok oracle
    /\ forall psi j, 0 <= j < 2 ^ Z.of_nat n ->
         amplitude n (run_circuit oracle psi) j
         = if j =? m then Copp (amplitude n psi j) else amplitude n psi j.
Proof.
  intros Hn Hm.
  destruct (build_oracle_run n m Hn Hm) as (o & bs & Ho & _ & _ & Hlt & Hb & Hr).
  exists o. split; [exact Ho|]. intros psi j Hj. unfold amplitude.
  rewrite Hr by apply basis_state_lt.
  assert (E : state_of_bits bs = basis_state n m).
  { apply (eq_of_low_bits n); [exact Hlt | apply basis_state_lt |].
    intros q Hq. now rewrite testbit_basis_state, Hb. }
  rewrite E. destruct (Z.eqb_spec j m) as [->|Hne].
  - now rewrite Nat.eqb_refl.
  - destruct (Nat.eqb_spec (basis_state n j) (basis_state n m)) as [Heq|_];
      [|reflexivity].
    exfalso. apply Hne. exact (basis_state_inj n j m Hj Hm Heq).
Qed.

(** * The claims *)

Lemma Z_of_nat_to_nat n : 1 <= n -> Z.of_nat (Z.to_nat n) = n.
Proof. intro H. apply Z2Nat.id. lia. Qed.

(** ** The oracle on the uniform superposition *)

Lemma uniform_2 k : (k < 4)%nat -> uniform 2 k = mkC (/ 2) 0.
Proof.
  intro Hk. unfold uniform. rewrite sqrt_4.
  destruct (Nat.ltb_spec k (2 ^ 2)) as [_|H]; [reflexivity | simpl in H; lia].
Qed.

Lemma oracle_10_on_uniform k :
  (k < 4)%nat ->
  run (oracle_gates 2 "10") (uniform 2) k
  = if (k =? 1)%nat then mkC (- / 2) 0 else mkC (/ 2) 0.
Proof.
  intro Hk. rewrite run_oracle_gates; try reflexivity; try (simpl; lia).
  - change (state_of_bits "10") with 1%nat. rewrite uniform_2 by exact Hk.
    destruct (k =? 1)%nat; Calg.
  - intros j Hj. destruct j as [|[|j]]; [exists true | exists false | lia]; reflexivity.
Qed.

(** The basis state each two-qubit oracle negates, by marked index: 1 and 2
    change places, 0 and 3 read the same in both directions. *)
Example negated_states_2 :
  map (fun m => match index_to_bitstring m 2 with
                | Ok bs => Some (state_of_bits bs)
                | Raise _ => None
                end) [0; 1; 2; 3]
  = [Some 0; Some 2; Some 1; Some 3]%nat.
Proof. reflexivity. Qed.

Example negated_states_3 :
  map (fun m => match index_to_bitstring m 3 with
                | Ok bs => Some (state_of_bits bs)
                | Raise _ => None
                end) [0; 1; 2; 3; 4; 5; 6; 7]
  = [Some 0; Some 4; Some 2; Some 6; Some 1; Some 5; Some 3; Some 7]%nat.
Proof. reflexivity. Qed.

(** In the positions of the state vector (qubit 0 least significant) the
    oracle that [build_oracle 2 2] returns negates position 1 and leaves
    position 2 as it is: bit text [10] puts its first character on qubit 0.
    Position 1 is the basis state of index 2. *)
Lemma oracle_2_2_negates_position_1 :
  exists oracle,
    build_oracle 2 2 = Ok oracle
    /\ basis_state 2 2 = 1%nat
    /\ run_circuit oracle (uniform 2) 2%nat = uniform 2 2%nat
    /\ run_circuit oracle (uniform 2) 1%nat = Copp (uniform 2 1%nat)
    /\ Copp (uniform 2 1%nat) <> uniform 2 1%nat
    /\ forall k, (k < 4)%nat ->
         Cnorm2 (run_circuit oracle (uniform 2) k) = (/ 2 ^ 2)%R.
Proof.
  eexists. split; [reflexivity|]. split; [reflexivity|].
  unfold run_circuit. simpl data.
  change [XGate 1; HGate 1; MCXGate [0%nat] 1; HGate 1; XGate 1]
    with (oracle_gates 2 "10").
  repeat split.
  - rewrite oracle_10_on_uniform, uniform_2 by lia. reflexivity.
  - rewrite oracle_10_on_uniform, uniform_2 by lia. Calg.
  - apply uniform_nonzero. simpl. lia.
  - intros k Hk. rewrite oracle_10_on_uniform by exact Hk.
    destruct (k =? 1)%nat; Calg.
Qed.

(** C1.  For a register of [n >= 1] qubits, so for [n] in 1, 2, 3, and a
    marked index in [[0, 2^n)], the oracle that [build_oracle] returns,
    applied to the uniform superposition, changes the sign of the amplitude
    of the basis state [marked_index] and of no other basis state, and every
    amplitude keeps the magnitude [1/sqrt(2^n)] (squared: [1/2^n]).  Basis
    states are taken by index, qubit [i] holding bit [i] of the [n]-digit
    numeral, most significant bit first; the indices in [[0, 2^n)] cover
    every position of the state vector. *)
Theorem oracle_negates_marked_amplitude (n marked_index : Z) :
  1 <= n -> 0 <= marked_index < 2 ^ n ->
  exists oracle,
    build_oracle n marked_index = Ok oracle
    /\ (forall j, 0 <= j < 2 ^ n ->
          amplitude (Z.to_nat n) (run_circuit oracle (uniform (Z.to_nat n))) j
          = (if j =? marked_index
             then Copp (amplitude (Z.to_nat n) (uniform (Z.to_nat n)) j)
             else amplitude (Z.to_nat n) (uniform (Z.to_nat n)) j)
          /\ amplitude (Z.to_nat n) (uniform (Z.to_nat n)) j
             = RtoC (/ sqrt (2 ^ Z.to_nat n))
          /\ Copp (amplitude (Z.to_nat n) (uniform (Z.to_nat n)) j)
             <> amplitude (Z.to_nat n) (uniform (Z.to_nat n)) j
          /\ Cnorm2 (amplitude (Z.to_nat n)
                       (run_circuit oracle (uniform (Z.to_nat n))) j)
             = (/ 2 ^ Z.to_nat n)%R)
    /\ (forall k, (k < 2 ^ Z.to_nat n)%nat ->
          exists j, 0 <= j < 2 ^ n /\ basis_state (Z.to_nat n) j = k).
Proof.
  intros Hn Hm.
  assert (HN : Z.of_nat (Z.to_nat n) = n) by (apply Z_of_nat_to_nat; exact Hn).
  destruct (build_oracle_basis_state (Z.to_nat n) marked_index)
    as (o & Ho & Hr); [lia | rewrite HN; exact Hm |].
  rewrite HN in Ho, Hr.
  exists o. split; [exact Ho|]. split.
  - intros j Hj.
    assert (Hk : (basis_state (Z.to_nat n) j < 2 ^ Z.to_nat n)%nat)
      by apply basis_state_lt.
    split; [apply Hr, Hj|]. split; [|split].
    + unfold amplitude, uniform.
      destruct (Nat.ltb_spec (basis_state (Z.to_nat n) j) (2 ^ Z.to_nat n));
        [reflexivity | lia].
    + apply uniform_nonzero, Hk.
    + rewrite (Hr _ j Hj).
      destruct (j =? marked_index); [rewrite Cnorm2_opp|]; apply uniform_norm2, Hk.
  - intros k Hk. destruct (basis_state_onto (Z.to_nat n) k Hk) as (j & Hj & Hb).
    rewrite HN in Hj. exists j. split; [exact Hj | exact Hb].
Qed.

Lemma oracle_negates_marked_amplitude_witness :
  (1 <= 2 /\ 0 <= 2 < 2 ^ 2) /\
  exists oracle,
    build_oracle 2 2 = Ok oracle
    /\ amplitude 2 (run_circuit oracle (uniform 2)) 2
       = Copp (amplitude 2 (uniform 2) 2)
    /\ amplitude 2 (run_circuit oracle (uniform 2)) 1 = amplitude 2 (uniform 2) 1.
Proof.
  assert (H : 1 <= 2 /\ 0 <= 2 < 2 ^ 2) by (simpl; lia).
  split; [exact H|]. destruct H as [H1 H2].
  destruct (oracle_negates_marked_amplitude 2 2 H1 H2) as (o & Ho & Hj & _).
  exists o. split; [exact Ho|]. split.
  - exact (proj1 (Hj 2 ltac:(simpl; lia))).
  - exact (proj1 (Hj 1 ltac:(simpl; lia))).
Defined.

(** ** The diffuser *)

(** C2.  For every [n >= 1] and every state vector (normalised or not), the
    circuit [build_diffuser n] returns, applied twice, gives the state back
    (with phase factor 1), and applied once it sends each amplitude [a_k] to
    [-(2 * mean - a_k)]: the reflection of the amplitudes about their mean,
    up to the global phase factor -1. *)
Theorem diffuser_self_inverse_and_reflection (n : Z) (psi : State) :
  1 <= n ->
  exists diffuser,
    build_diffuser n = Ok diffuser
    /\ run_circuit diffuser (run_circuit diffuser psi) = psi
    /\ equal_up_to_phase (Z.to_nat n)
         (run_circuit diffuser (run_circuit diffuser psi)) psi
    /\ (forall k, (k < 2 ^ Z.to_nat n)%nat ->
          run_circuit diffuser psi k = Copp (reflect_about_mean (Z.to_nat n) psi k))
    /\ equal_up_to_phase (Z.to_nat n)
         (run_circuit diffuser psi) (reflect_about_mean (Z.to_nat n) psi).
Proof.
  intro Hn.
  destruct (build_diffuser_run (Z.to_nat n)) as (d & Hd & _ & Hinv & Hrefl); [lia|].
  rewrite Z_of_nat_to_nat in Hd by exact Hn.
  exists d. split; [exact Hd|]. split; [apply Hinv|]. split.
  - rewrite Hinv. apply equal_up_to_phase_refl.
  - split; [apply Hrefl|]. apply equal_up_to_phase_opp, Hrefl.
Qed.

Lemma diffuser_self_inverse_and_reflection_witness :
  1 <= 2 /\
  exists diffuser,
    build_diffuser 2 = Ok diffuser
    /\ run_circuit diffuser (run_circuit diffuser initial_state) = initial_state.
Proof.
  split; [lia|].
  destruct (diffuser_self_inverse_and_reflection 2 initial_state) as (d & Hd & Hinv & _);
    [lia|].
  exists d. split; assumption.
Defined.

(** ** The multi-controlled Z *)

(** C3.  For [n >= 2] the gates H(n-1), MCX([0..n-2], n-1), H(n-1), and for
    [n = 1] the gate Z(0), are what both [build_oracle] and [build_diffuser]
    place between their X gates; on any state vector they negate the
    amplitude of the all-ones basis state [2^n - 1] and leave every other
    amplitude as it is. *)
Theorem multi_controlled_z_negates_all_ones (n m : Z) (psi : State) (k : nat) :
  1 <= n -> 0 <= m < 2 ^ n -> (k < 2 ^ Z.to_nat n)%nat ->
  exists oracle diffuser bs gs,
    build_oracle n m = Ok oracle
    /\ build_diffuser n = Ok diffuser
    /\ index_to_bitstring m n = Ok bs
    /\ data oracle = x_gates bs ++ gs ++ x_gates bs
    /\ data diffuser
       = map HGate (seq 0 (Z.to_nat n)) ++ map XGate (seq 0 (Z.to_nat n)) ++ gs
           ++ map XGate (seq 0 (Z.to_nat n)) ++ map HGate (seq 0 (Z.to_nat n))
    /\ gs = (if n =? 1 then [ZGate 0]
             else [HGate (Z.to_nat n - 1);
                   MCXGate (seq 0 (Z.to_nat n - 1)) (Z.to_nat n - 1);
                   HGate (Z.to_nat n - 1)])
    /\ run gs psi k
       = if (k =? 2 ^ Z.to_nat n - 1)%nat then Copp (psi k) else psi k.
Proof.
  intros Hn Hm Hk.
  set (N := Z.to_nat n) in *.
  assert (HN : Z.of_nat N = n) by (apply Z_of_nat_to_nat; exact Hn).
  assert (HN1 : (1 <= N)%nat) by lia.
  rewrite <- HN in Hm.
  destruct (build_oracle_ok N m HN1 Hm) as (bs & Hbs & _ & Ho).
  rewrite HN in Hbs, Ho.
  pose proof (build_diffuser_ok N HN1) as Hd. rewrite HN in Hd.
  do 2 eexists. exists bs, (mcz_gates N).
  split; [exact Ho|]. split; [exact Hd|]. split; [exact Hbs|].
  split; [reflexivity|]. split; [reflexivity|]. split.
  - rewrite <- HN. now apply mcz_gates_cases.
  - now apply run_mcz_gates_low.
Qed.

Lemma multi_controlled_z_negates_all_ones_witness :
  (1 <= 2 /\ 0 <= 2 < 2 ^ 2 /\ (3 < 2 ^ Z.to_nat 2)%nat) /\
  run [HGate 1; MCXGate [0%nat] 1; HGate 1] (uniform 2) 3%nat
  = Copp (uniform 2 3%nat).
Proof.
  assert (H : 1 <= 2 /\ 0 <= 2 < 2 ^ 2 /\ (3 < 2 ^ Z.to_nat 2)%nat)
    by (simpl; lia).
  split; [exact H|].
  destruct H as (H1 & H2 & H3).
  destruct (multi_controlled_z_negates_all_ones 2 2 (uniform 2) 3 H1 H2 H3)
    as (o & d & bs & gs & _ & _ & _ & _ & _ & Hgs & Hrun).
  simpl in Hgs. subst gs. exact Hrun.
Defined.

(** ** The assembled circuit *)

Lemma build_grover_circuit_Z (n m it : Z) :
  1 <= n -> 0 <= m < 2 ^ n ->
  exists oracle diffuser bs,
    build_oracle n m = Ok oracle
    /\ build_diffuser n = Ok diffuser
    /\ index_to_bitstring m n = Ok bs
    /\ data oracle = oracle_gates (Z.to_nat n) bs
    /\ data diffuser = diffuser_gates (Z.to_nat n)
    /\ build_grover_circuit n m it
       = Ok (mkCircuit (Z.to_nat n) (Z.to_nat n) None
               (map HGate (seq 0 (Z.to_nat n))
                  ++ grover_blocks oracle diffuser (Z.to_nat n) (Z.to_nat it)
                  ++ measure_gates (Z.to_nat n)))
    /\ gate_sequence
         (mkCircuit (Z.to_nat n) (Z.to_nat n) None
            (map HGate (seq 0 (Z.to_nat n))
               ++ grover_blocks oracle diffuser (Z.to_nat n) (Z.to_nat it)
               ++ measure_gates (Z.to_nat n)))
       = map HGate (seq 0 (Z.to_nat n))
           ++ List.concat (repeat (data oracle ++ data diffuser) (Z.to_nat it))
           ++ measure_gates (Z.to_nat n).
Proof.
  intros Hn Hm.
  set (N := Z.to_nat n) in *.
  assert (HN : Z.of_nat N = n) by (apply Z_of_nat_to_nat; exact Hn).
  assert (HN1 : (1 <= N)%nat) by lia.
  rewrite <- HN in Hm.
  destruct (build_oracle_ok N m HN1 Hm) as (bs & Hbs & Hlen & Ho).
  destruct (build_grover_circuit_ok N m it HN1 Hm) as (o & Ho' & _ & Hg).
  rewrite Ho in Ho'. injection Ho' as <-.
  pose proof (build_diffuser_ok N HN1) as Hd.
  rewrite HN in Hbs, Ho, Hd, Hg.
  do 2 eexists. exists bs.
  split; [exact Ho|]. split; [exact Hd|]. split; [exact Hbs|].
  split; [reflexivity|]. split; [reflexivity|]. split; [exact Hg|].
  unfold gate_sequence. simpl data.
  rewrite !flat_map_app.
  rewrite (flat_map_inline_primitive N)
    by first
         [ intros; reflexivity
         | apply forallb_map_gate; [reflexivity | apply Forall_seq_lt; lia] ].
  rewrite (gate_sequence_blocks _ _ N)
    by (simpl data;
        first [apply primitive_oracle_gates | apply primitive_diffuser_gates];
        assumption).
  rewrite (flat_map_inline_primitive N)
    by first
         [ intros; reflexivity
         | unfold measure_gates; apply (forallb_map_gate (fun i => Measure i i));
           [reflexivity | apply Forall_seq_lt; lia] ].
  reflexivity.
Qed.

(** C4.  For [n >= 1] and a marked index in range, whatever the iteration
    count, [build_grover_circuit] returns a circuit on [n] qubits and [n]
    classical bits whose instructions are: H on each of the qubits
    [0..n-1]; then, [iterations] times (no times when the count is not
    positive), the oracle as one instruction on qubits [0..n-1] followed by
    the diffuser as one instruction on qubits [0..n-1]; then the measurement
    of qubit [i] into classical bit [i] for [i = 0..n-1], and nothing after
    it.  With the two blocks inlined the gate sequence is the H layer, the
    repeated gates of oracle and diffuser, and the measurements.  For
    [n < 1] it raises ValueError; so does [build_grover_circuit 0 0 1]. *)
Theorem build_grover_circuit_structure (n marked_index iterations : Z) :
  (n < 1 ->
   build_grover_circuit n marked_index iterations
   = Raise (ValueError "n must be >= 1"))
  /\ build_grover_circuit 0 0 1 = Raise (ValueError "n must be >= 1")
  /\ (1 <= n -> 0 <= marked_index < 2 ^ n ->
      exists qc oracle diffuser,
        build_grover_circuit n marked_index iterations = Ok qc
        /\ build_oracle n marked_index = Ok oracle
        /\ build_diffuser n = Ok diffuser
        /\ num_qubits qc = Z.to_nat n
        /\ num_clbits qc = Z.to_nat n
        /\ data qc
           = map HGate (seq 0 (Z.to_nat n))
               ++ List.concat
                    (repeat [to_instruction oracle (seq 0 (Z.to_nat n));
                             to_instruction diffuser (seq 0 (Z.to_nat n))]
                       (Z.to_nat iterations))
               ++ map (fun i => Measure i i) (seq 0 (Z.to_nat n))
        /\ gate_sequence qc
           = map HGate (seq 0 (Z.to_nat n))
               ++ List.concat
                    (repeat (data oracle ++ data diffuser) (Z.to_nat iterations))
               ++ map (fun i => Measure i i) (seq 0 (Z.to_nat n))).
Proof.
  split; [|split; [reflexivity|]].
  - intro Hn. unfold build_grover_circuit.
    destruct (Z.ltb_spec n 1); [reflexivity | lia].
  - intros Hn Hm.
    destruct (build_grover_circuit_Z n marked_index iterations Hn Hm)
      as (o & d & bs & Ho & Hd & _ & _ & _ & Hg & Hseq).
    eexists. exists o, d.
    split; [exact Hg|]. split; [exact Ho|]. split; [exact Hd|].
    split; [reflexivity|]. split; [reflexivity|]. split; [reflexivity|].
    exact Hseq.
Qed.

Lemma build_grover_circuit_structure_witness :
  (1 <= 2 /\ 0 <= 2 < 2 ^ 2) /\
  exists qc,
    build_grover_circuit 2 2 1 = Ok qc
    /\ gate_sequence qc
       = [HGate 0; HGate 1;
          XGate 1; HGate 1; MCXGate [0%nat] 1; HGate 1; XGate 1;
          HGate 0; HGate 1; XGate 0; XGate 1;
          HGate 1; MCXGate [0%nat] 1; HGate 1;
          XGate 0; XGate 1; HGate 0; HGate 1;
          Measure 0 0; Measure 1 1].
Proof.
  assert (H : 1 <= 2 /\ 0 <= 2 < 2 ^ 2) by (simpl; lia).
  split; [exact H|]. destruct H as [H1 H2].
  destruct (build_grover_circuit_structure 2 2 1) as (_ & _ & Hok).
  destruct (Hok H1 H2) as (qc & o & d & Hg & Ho & Hd & _ & _ & _ & Hseq).
  exists qc. split; [exact Hg|].
  rewrite Hseq.
  assert (Eo : Ok o = build_oracle 2 2) by (symmetry; exact Ho).
  assert (Ed : Ok d = build_diffuser 2) by (symmetry; exact Hd).
  vm_compute in Eo. vm_compute in Ed.
  injection Eo as ->. injection Ed as ->. reflexivity.
Defined.

(** C10.  No check is made on the iteration count: for [n >= 1], a marked
    index in range and [iterations <= 0], [build_grover_circuit] returns a
    circuit that holds no oracle and no diffuser, only H on each of the [n]
    qubits followed by the measurement of each qubit. *)
Theorem build_grover_circuit_no_iterations (n marked_index iterations : Z) :
  1 <= n -> 0 <= marked_index < 2 ^ n -> iterations <= 0 ->
  exists qc,
    build_grover_circuit n marked_index iterations = Ok qc
    /\ num_qubits qc = Z.to_nat n
    /\ num_clbits qc = Z.to_nat n
    /\ data qc
       = map HGate (seq 0 (Z.to_nat n))
           ++ map (fun i => Measure i i) (seq 0 (Z.to_nat n))
    /\ gate_sequence qc = data qc.
Proof.
  intros Hn Hm Hit.
  destruct (build_grover_circuit_Z n marked_index iterations Hn Hm)
    as (o & d & bs & _ & _ & _ & _ & _ & Hg & Hseq).
  replace (Z.to_nat iterations) with 0%nat in Hg, Hseq by lia.
  eexists. split; [exact Hg|].
  split; [reflexivity|]. split; [reflexivity|]. split; [reflexivity|].
  rewrite Hseq. reflexivity.
Qed.

Lemma build_grover_circuit_no_iterations_witness :
  (1 <= 2 /\ 0 <= 2 < 2 ^ 2 /\ -3 <= 0) /\
  exists qc,
    build_grover_circuit 2 2 (-3) = Ok qc
    /\ data qc = [HGate 0; HGate 1; Measure 0 0; Measure 1 1].
Proof.
  assert (H : 1 <= 2 /\ 0 <= 2 < 2 ^ 2 /\ -3 <= 0) by (simpl; lia).
  split; [exact H|]. destruct H as (H1 & H2 & H3).
  destruct (build_grover_circuit_no_iterations 2 2 (-3) H1 H2 H3)
    as (qc & Hg & _ & _ & Hdata & _).
  exists qc. split; [exact Hg | exact Hdata].
Defined.

(** ** Range check of the oracle builder *)

(** C6.  For a register of [n >= 1] qubits, [build_oracle n marked_index]
    raises ValueError exactly when the marked index lies outside
    [[0, 2^n)], and returns a circuit when it lies inside;
    [build_oracle 2 4] raises ValueError. *)
Theorem build_oracle_range_check (n marked_index : Z) :
  1 <= n ->
  ((exists msg, build_oracle n marked_index = Raise (ValueError msg))
   <-> ~ (0 <= marked_index < 2 ^ n))
  /\ (0 <= marked_index < 2 ^ n -> exists qc, build_oracle n marked_index = Ok qc)
  /\ (~ (0 <= marked_index < 2 ^ n) ->
      build_oracle n marked_index = Raise (ValueError "marked_index out of range"))
  /\ build_oracle 2 4 = Raise (ValueError "marked_index out of range").
Proof.
  intro Hn.
  assert (Hin : 0 <= marked_index < 2 ^ n -> exists qc, build_oracle n marked_index = Ok qc).
  { intro Hm. rewrite <- (Z_of_nat_to_nat n Hn) in Hm |- *.
    destruct (build_oracle_ok (Z.to_nat n) marked_index) as (bs & _ & _ & Ho);
      [lia | exact Hm |]. eexists. exact Ho. }
  assert (Hout : ~ (0 <= marked_index < 2 ^ n) ->
                 build_oracle n marked_index
                 = Raise (ValueError "marked_index out of range")).
  { intro Hm. unfold build_oracle. rewrite ge_pow2_nonneg by lia.
    destruct (Z.ltb_spec marked_index 0); [reflexivity|].
    destruct (Z.leb_spec (2 ^ n) marked_index); [reflexivity | lia]. }
  split; [|split; [exact Hin | split; [exact Hout | reflexivity]]].
  split.
  - intros [msg Hraise] Hm. destruct (Hin Hm) as [qc Hok]. congruence.
  - intro Hm. eexists. apply Hout, Hm.
Qed.

Lemma build_oracle_range_check_witness :
  1 <= 2 /\ build_oracle 2 4 = Raise (ValueError "marked_index out of range").
Proof.
  split; [lia|].
  assert (H : 1 <= 2) by lia.
  destruct (build_oracle_range_check 2 4 H) as (_ & _ & Hout & _).
  apply Hout. simpl. lia.
Defined.

(** ** The bit text of an index *)

(** C8, counterexample.  An index outside [[0, 2^n)] is not refused:
    [index_to_bitstring 4 2] returns the three characters [100].  And for
    [n = 0] the index 0 of the range [[0, 2^0)] gives the one character [0],
    not a text of [n] characters. *)
Lemma index_to_bitstring_accepts_out_of_range :
  index_to_bitstring 4 2 = Ok "100"
  /\ ~ (exists e, index_to_bitstring 4 2 = Raise e)
  /\ index_to_bitstring 0 0 = Ok "0".
Proof.
  split; [reflexivity|]. split; [|reflexivity].
  intros [e He]. discriminate He.
Qed.

(** C8, amended.  For a width [n >= 1] that [format] accepts, that is
    [n <= PY_SSIZE_T_MAX]: an index in [[0, 2^n)] gives a text of exactly [n]
    characters, each 0 or 1, character [j] being the bit of weight
    [2^(n-1-j)] of the index (most significant bit first, padded with
    zeros); an index outside the range is not refused, a text is returned
    for it as well. *)
Theorem index_to_bitstring_width (index n : Z) :
  1 <= n <= PY_SSIZE_T_MAX ->
  (0 <= index < 2 ^ n ->
   exists s, index_to_bitstring index n = Ok s
     /\ String.length s = Z.to_nat n
     /\ forall j, (j < Z.to_nat n)%nat ->
          String.get j s = Some (bitchar (Z.testbit index (n - 1 - Z.of_nat j))))
  /\ (~ (0 <= index < 2 ^ n) -> exists s, index_to_bitstring index n = Ok s).
Proof.
  intros [Hn _]. split.
  - intro Hi. now apply index_to_bitstring_in_range.
  - intros _. apply index_to_bitstring_total. lia.
Qed.

Lemma index_to_bitstring_width_witness :
  (1 <= 3 <= PY_SSIZE_T_MAX /\ 0 <= 5 < 2 ^ 3) /\
  exists s, index_to_bitstring 5 3 = Ok s /\ String.length s = Z.to_nat 3.
Proof.
  assert (H : 1 <= 3 <= PY_SSIZE_T_MAX /\ 0 <= 5 < 2 ^ 3)
    by (unfold PY_SSIZE_T_MAX; simpl; lia).
  split; [exact H|]. destruct H as [H1 H2].
  destruct (index_to_bitstring_width 5 3 H1) as [Hin _].
  destruct (Hin H2) as (s & Hs & Hlen & _).
  exists s. split; [exact Hs | exact Hlen].
Defined.

(** C9, counterexample.  A negative width is refused, so the function can
    raise: [index_to_bitstring 0 (-1)] raises ValueError.  For [n = 0] the
    index 0 lies in [[0, 2^0)] and the text returned has one character, not
    [n]. *)
Lemma index_to_bitstring_raises_on_negative_width :
  (exists msg, index_to_bitstring 0 (-1) = Raise (ValueError msg))
  /\ 0 <= 0 < 2 ^ 0
  /\ index_to_bitstring 0 0 = Ok "0"
  /\ String.length "0" <> Z.to_nat 0.
Proof.
  split; [eexists; reflexivity|]. split; [simpl; lia|]. split; [reflexivity|].
  simpl. discriminate.
Qed.

(** C9, amended.  For every integer index and every width [n >= 0] that
    [format] accepts, that is [n <= PY_SSIZE_T_MAX], the function raises
    nothing.  An index at or above [2^n] gives a text longer
    than [n] characters holding all binary digits of the index (padding adds
    zeros, nothing is cut off); a negative index gives a text that starts
    with a minus sign.  For [n >= 1] an index in [[0, 2^n)] gives exactly [n]
    characters, each 0 or 1. *)
Theorem index_to_bitstring_never_truncates (index n : Z) :
  0 <= n <= PY_SSIZE_T_MAX ->
  (exists s, index_to_bitstring index n = Ok s)
  /\ (1 <= n -> 0 <= index < 2 ^ n ->
      exists s, index_to_bitstring index n = Ok s
        /\ String.length s = Z.to_nat n
        /\ forall j, (j < Z.to_nat n)%nat ->
             exists b, String.get j s = Some (bitchar b))
  /\ (2 ^ n <= index ->
      exists s, index_to_bitstring index n = Ok s
        /\ (Z.to_nat n < String.length s)%nat
        /\ forall j, (j < String.length s)%nat ->
             String.get j s
             = Some (bitchar (Z.testbit index
                                (Z.of_nat (String.length s) - 1 - Z.of_nat j))))
  /\ (index < 0 ->
      exists s, index_to_bitstring index n = Ok (String "-" s)).
Proof.
  intros [Hn _]. split; [now apply index_to_bitstring_total|]. split; [|split].
  - intros Hn1 Hi.
    destruct (index_to_bitstring_in_range index n Hn1 Hi) as (s & Hs & Hlen & Hget).
    exists s. split; [exact Hs|]. split; [exact Hlen|].
    intros j Hj. eexists. apply (Hget j Hj).
  - now apply index_to_bitstring_above.
  - now apply index_to_bitstring_negative.
Qed.

Lemma index_to_bitstring_never_truncates_witness :
  (0 <= 2 <= PY_SSIZE_T_MAX /\ 2 ^ 2 <= 4) /\
  exists s, index_to_bitstring 4 2 = Ok s /\ (Z.to_nat 2 < String.length s)%nat.
Proof.
  assert (H : 0 <= 2 <= PY_SSIZE_T_MAX /\ 2 ^ 2 <= 4)
    by (unfold PY_SSIZE_T_MAX; simpl; lia).
  split; [exact H|]. destruct H as [H1 H2].
  destruct (index_to_bitstring_never_truncates 4 2 H1) as (_ & _ & Habove & _).
  destruct (Habove H2) as (s & Hs & Hlen & _).
  exists s. split; [exact Hs | exact Hlen].
Defined.

(** ** The recommended iteration count *)




(** ** End to end: two qubits, marked index 2, one iteration *)

Lemma grover_2_2_1_amplitudes k :
  (k < 4)%nat ->
  run (map HGate (seq 0 2)
         ++ [Composite (Some "Oracle(10)") (oracle_gates 2 "10") 2 (seq 0 2);
             Composite (Some "Diffuser") (diffuser_gates 2) 2 (seq 0 2)]
         ++ measure_gates 2) initial_state k
  = if (k =? 1)%nat then Copp C1 else C0.
Proof.
  intro Hk. rewrite !run_app, run_measure_gates.
  change (run (map HGate (seq 0 2)) initial_state) with (h_layer 2 initial_state).
  rewrite h_layer_initial.
  change [Composite (Some "Oracle(10)") (oracle_gates 2 "10") 2 (seq 0 2);
          Composite (Some "Diffuser") (diffuser_gates 2) 2 (seq 0 2)]
    with ([Composite (Some "Oracle(10)") (oracle_gates 2 "10") 2 (seq 0 2)]
            ++ [Composite (Some "Diffuser") (diffuser_gates 2) 2 (seq 0 2)]).
  rewrite run_app, !run_composite by reflexivity.
  rewrite diffuser_gates_reflect by (simpl; lia).
  unfold reflect_about_mean, mean.
  remember (run (oracle_gates 2 "10") (uniform 2)) as phi eqn:Hphi.
  assert (H : forall j, (j < 4)%nat ->
            phi j = if (j =? 1)%nat then mkC (- / 2) 0 else mkC (/ 2) 0).
  { intros j Hj. subst phi. now apply oracle_10_on_uniform. }
  simpl amplitude_sum.
  rewrite (H 0%nat), (H 1%nat), (H 2%nat), (H 3%nat), (H k) by lia.
  simpl Nat.eqb.
  destruct (k =? 1)%nat; Calg.
Qed.

(** C7, evaluated at [n = 2], [marked_index = 2], [iterations = 1].  Before
    the measurement the register is in basis state 1 with probability 1:
    qubit 0 is 1 and qubit 1 is 0.  The measurement copies qubit [i] to
    classical bit [i], and a counts key shows classical bit 0 rightmost, so
    the outcome is filed under key [01]; every shot gives that key.  The key
    [10] belongs to basis state 2, whose probability is 0. *)
Theorem grover_2_2_1_outcome_is_01 :
  exists qc,
    build_grover_circuit 2 2 1 = Ok qc
    /\ let final := run_circuit qc initial_state in
       let key := fun k => counts_key 2 (classical_value (gate_sequence qc) k) in
       probability final 1%nat = 1%R
       /\ key 1%nat = "01"
       /\ probability final 2%nat = 0%R
       /\ key 2%nat = "10"
       /\ forall k, (k < 4)%nat -> probability final k <> 0%R -> k = 1%nat.
Proof.
  eexists. split; [reflexivity|].
  cbv zeta. unfold run_circuit, probability. simpl data.
  change [HGate 0; HGate 1;
          Composite (Some "Oracle(10)")
            [XGate 1; HGate 1; MCXGate [0%nat] 1; HGate 1; XGate 1] 2 [0%nat; 1%nat];
          Composite (Some "Diffuser")
            [HGate 0; HGate 1; XGate 0; XGate 1; HGate 1; MCXGate [0%nat] 1;
             HGate 1; XGate 0; XGate 1; HGate 0; HGate 1] 2 [0%nat; 1%nat];
          Measure 0 0; Measure 1 1]
    with (map HGate (seq 0 2)
            ++ [Composite (Some "Oracle(10)") (oracle_gates 2 "10") 2 (seq 0 2);
                Composite (Some "Diffuser") (diffuser_gates 2) 2 (seq 0 2)]
            ++ measure_gates 2).
  split; [rewrite grover_2_2_1_amplitudes by lia; Calg|].
  split; [reflexivity|].
  split; [rewrite grover_2_2_1_amplitudes by lia; Calg|].
  split; [reflexivity|].
  intros k Hk Hp. rewrite grover_2_2_1_amplitudes in Hp by exact Hk.
  destruct (Nat.eqb_spec k 1) as [->|_]; [reflexivity|].
  exfalso. apply Hp. Calg.
Qed.

(** * Further properties of the circuits and of the command line *)

(** ** The oracle *)

Lemma build_oracle_data (n m : Z) :
  1 <= n -> 0 <= m < 2 ^ n ->
  exists oracle bs,
    build_oracle n m = Ok oracle
    /\ index_to_bitstring m n = Ok bs
    /\ String.length bs = Z.to_nat n
    /\ (forall j, (j < Z.to_nat n)%nat ->
          String.get j bs = Some (bitchar (Z.testbit m (n - 1 - Z.of_nat j))))
    /\ num_qubits oracle = Z.to_nat n
    /\ data oracle = oracle_gates (Z.to_nat n) bs.
Proof.
  intros Hn Hm.
  destruct (index_to_bitstring_in_range m n Hn Hm) as (bs & Hbs & Hlen & Hget).
  assert (HN : Z.of_nat (Z.to_nat n) = n) by (apply Z_of_nat_to_nat; exact Hn).
  destruct (build_oracle_ok (Z.to_nat n) m) as (bs' & Hbs' & _ & Ho);
    [lia | rewrite HN; exact Hm |].
  rewrite HN in Hbs', Ho. rewrite Hbs in Hbs'. injection Hbs' as <-.
  eexists. exists bs. split; [exact Ho|]. split; [exact Hbs|].
  split; [exact Hlen|]. split; [exact Hget|]. split; reflexivity.
Qed.

(** X1.  For [n >= 1] and a marked index in range, the oracle negates the
    amplitude of exactly one basis state [t] and leaves all others as they
    are; bit [q] of [t] is bit [n-1-q] of the marked index. *)
Theorem oracle_negates_one_state (n marked_index : Z) :
  1 <= n -> 0 <= marked_index < 2 ^ n ->
  exists oracle t,
    build_oracle n marked_index = Ok oracle
    /\ (t < 2 ^ Z.to_nat n)%nat
    /\ (forall q, (q < Z.to_nat n)%nat ->
          Nat.testbit t q = Z.testbit marked_index (n - 1 - Z.of_nat q))
    /\ forall psi k, (k < 2 ^ Z.to_nat n)%nat ->
         run_circuit oracle psi k = if (k =? t)%nat then Copp (psi k) else psi k.
Proof.
  intros Hn Hm.
  assert (HN : Z.of_nat (Z.to_nat n) = n) by (apply Z_of_nat_to_nat; exact Hn).
  destruct (build_oracle_run (Z.to_nat n) marked_index)
    as (o & bs & Ho & _ & _ & Hlt & Hbits & Hrun); [lia | rewrite HN; exact Hm |].
  rewrite HN in Ho.
  exists o, (state_of_bits bs). split; [exact Ho|]. split; [exact Hlt|].
  split; [|exact Hrun].
  intros q Hq. rewrite (Hbits q Hq). f_equal. lia.
Qed.

Lemma oracle_negates_one_state_witness :
  (1 <= 3 /\ 0 <= 6 < 2 ^ 3) /\
  exists oracle t,
    build_oracle 3 6 = Ok oracle /\ t = 3%nat
    /\ run_circuit oracle (uniform 3) 3%nat = Copp (uniform 3 3%nat).
Proof.
  assert (H : 1 <= 3 /\ 0 <= 6 < 2 ^ 3) by (simpl; lia).
  split; [exact H|]. destruct H as [H1 H2].
  destruct (oracle_negates_one_state 3 6 H1 H2) as (o & t & Ho & Hlt & Hbits & Hrun).
  assert (Ht : t = 3%nat).
  { apply (eq_of_low_bits 3); [exact Hlt | simpl; lia |].
    intros q Hq. rewrite (Hbits q Hq).
    destruct q as [|[|[|q]]]; [reflexivity | reflexivity | reflexivity | simpl in Hq; lia]. }
  exists o, t. split; [exact Ho|]. split; [exact Ht|].
  rewrite (Hrun (uniform 3) 3%nat) by (simpl; lia).
  rewrite Ht. reflexivity.
Defined.

Lemma run_oracle_sign n bs k :
  (1 <= n)%nat ->
  exists flip : bool,
    (forall phi, run (oracle_gates n bs) phi k = if flip then Copp (phi k) else phi k).
Proof.
  intro Hn. unfold oracle_gates, x_gates.
  exists (forallb (fun q => xorb (Nat.testbit k q)
                             (parity q (zero_positions_from 0 bs))) (seq 0 n)).
  intro phi. rewrite x_gates_from_map. now apply run_x_mcz_x.
Qed.

(** X2.  The oracle changes no measurement probability: it only changes a
    phase. *)
Theorem oracle_preserves_probabilities (n marked_index : Z) (psi : State) (k : nat) :
  1 <= n -> 0 <= marked_index < 2 ^ n ->
  exists oracle,
    build_oracle n marked_index = Ok oracle
    /\ probability (run_circuit oracle psi) k = probability psi k.
Proof.
  intros Hn Hm.
  destruct (build_oracle_data n marked_index Hn Hm) as (o & bs & Ho & _ & _ & _ & _ & Hd).
  exists o. split; [exact Ho|].
  unfold run_circuit, probability. rewrite Hd.
  destruct (run_oracle_sign (Z.to_nat n) bs k) as [flip Hflip]; [lia|].
  rewrite Hflip. destruct flip; [apply Cnorm2_opp | reflexivity].
Qed.

Lemma oracle_preserves_probabilities_witness :
  (1 <= 2 /\ 0 <= 1 < 2 ^ 2) /\
  exists oracle,
    build_oracle 2 1 = Ok oracle
    /\ probability (run_circuit oracle (uniform 2)) 2%nat = probability (uniform 2) 2%nat.
Proof.
  assert (H : 1 <= 2 /\ 0 <= 1 < 2 ^ 2) by (simpl; lia).
  split; [exact H|]. destruct H as [H1 H2].
  exact (oracle_preserves_probabilities 2 1 (uniform 2) 2%nat H1 H2).
Defined.

(** X3.  The oracle is its own inverse: applied twice it gives back the state. *)
Theorem oracle_twice_is_identity (n marked_index : Z) (psi : State) :
  1 <= n -> 0 <= marked_index < 2 ^ n ->
  exists oracle,
    build_oracle n marked_index = Ok oracle
    /\ run_circuit oracle (run_circuit oracle psi) = psi.
Proof.
  intros Hn Hm.
  destruct (build_oracle_data n marked_index Hn Hm) as (o & bs & Ho & _ & _ & _ & _ & Hd).
  exists o. split; [exact Ho|].
  unfold run_circuit. rewrite Hd.
  apply functional_extensionality. intro k.
  destruct (run_oracle_sign (Z.to_nat n) bs k) as [flip Hflip]; [lia|].
  rewrite !Hflip. destruct flip; [apply Copp_involutive | reflexivity].
Qed.

Lemma oracle_twice_is_identity_witness :
  (1 <= 2 /\ 0 <= 1 < 2 ^ 2) /\
  exists oracle,
    build_oracle 2 1 = Ok oracle
    /\ run_circuit oracle (run_circuit oracle initial_state) = initial_state.
Proof.
  assert (H : 1 <= 2 /\ 0 <= 1 < 2 ^ 2) by (simpl; lia).
  split; [exact H|]. destruct H as [H1 H2].
  exact (oracle_twice_is_identity 2 1 initial_state H1 H2).
Defined.

(** ** The diffuser keeps the total probability *)

Lemma probability_sum_ext psi phi m :
  (forall k, (k < m)%nat -> psi k = phi k) ->
  probability_sum psi m = probability_sum phi m.
Proof.
  induction m as [|m IH]; intro H; simpl; [reflexivity|].
  rewrite IH by (intros; apply H; lia). unfold probability. now rewrite H by lia.
Qed.

Lemma probability_sum_shift psi c m :
  probability_sum (fun k => Csub (psi k) c) m
  = (probability_sum psi m
     - 2 * (Re c * Re (amplitude_sum psi m) + Im c * Im (amplitude_sum psi m))
     + INR m * Cnorm2 c)%R.
Proof.
  induction m as [|m IH].
  - simpl. unfold Cnorm2. ring.
  - rewrite S_INR. cbn [probability_sum amplitude_sum]. rewrite IH.
    unfold probability, Cnorm2, Csub, Cadd. simpl. ring.
Qed.

Lemma INR_pow2 n : INR (2 ^ n) = (2 ^ n)%R.
Proof. rewrite pow_INR. reflexivity. Qed.

Lemma pow2_nonzero n : (2 ^ n <> 0)%R.
Proof. apply pow_nonzero. lra. Qed.

Lemma diffuser_gates_total_probability n psi :
  (1 <= n)%nat ->
  total_probability n (run (diffuser_gates n) psi) = total_probability n psi.
Proof.
  intro Hn. unfold total_probability.
  rewrite (probability_sum_ext _
             (fun k => Csub (psi k) (Cscale 2 (mean n psi)))).
  - rewrite probability_sum_shift, INR_pow2. unfold mean.
    pose proof (pow2_nonzero n) as HN.
    destruct (amplitude_sum psi (2 ^ n)) as [sr si].
    unfold Cnorm2, Cscale. simpl. field. exact HN.
  - intros k Hk. rewrite diffuser_gates_reflect by assumption.
    unfold reflect_about_mean. destruct (psi k), (mean n psi). Calg.
Qed.

(** X4.  The diffuser keeps the total probability of any state over the [2^n]
    basis states: a normalised state stays normalised. *)
Theorem diffuser_preserves_total_probability (n : Z) (psi : State) :
  1 <= n ->
  exists diffuser,
    build_diffuser n = Ok diffuser
    /\ total_probability (Z.to_nat n) (run_circuit diffuser psi)
       = total_probability (Z.to_nat n) psi.
Proof.
  intro Hn.
  pose proof (build_diffuser_ok (Z.to_nat n)) as Hd.
  rewrite Z_of_nat_to_nat in Hd by exact Hn.
  eexists. split; [apply Hd; lia|].
  unfold run_circuit. simpl data. apply diffuser_gates_total_probability. lia.
Qed.

Lemma diffuser_preserves_total_probability_witness :
  1 <= 2 /\
  exists diffuser,
    build_diffuser 2 = Ok diffuser
    /\ total_probability (Z.to_nat 2) (run_circuit diffuser initial_state)
       = total_probability (Z.to_nat 2) initial_state.
Proof.
  assert (H : 1 <= 2) by lia.
  split; [exact H|].
  exact (diffuser_preserves_total_probability 2 initial_state H).
Defined.

(** ** The search, round by round *)

Lemma amplitude_sum_two_level t ab m :
  amplitude_sum (two_level t ab) m
  = RtoC (if (t <? m)%nat then fst ab + (INR m - 1) * snd ab
          else INR m * snd ab)%R.
Proof.
  induction m as [|m IH].
  - simpl. unfold RtoC, C0. f_equal. ring.
  - cbn [amplitude_sum]. rewrite IH, S_INR. unfold two_level.
    destruct (Nat.ltb_spec t m), (Nat.ltb_spec t (S m)), (Nat.eqb_spec m t);
      try lia; Calg.
Qed.

Lemma probability_sum_two_level t ab m :
  probability_sum (two_level t ab) m
  = (if (t <? m)%nat then fst ab * fst ab + (INR m - 1) * (snd ab * snd ab)
     else INR m * (snd ab * snd ab))%R.
Proof.
  induction m as [|m IH].
  - simpl. ring.
  - cbn [probability_sum]. rewrite IH, S_INR. unfold probability, two_level.
    destruct (Nat.ltb_spec t m), (Nat.ltb_spec t (S m)), (Nat.eqb_spec m t);
      try lia; unfold Cnorm2, RtoC; simpl; ring.
Qed.

(** One round (oracle, then diffuser) on a state with amplitude [a] on the
    oracle's state and [b] elsewhere gives a state of the same shape, with
    the amplitudes of [grover_step]. *)
Lemma grover_round_two_level n bs psi ab :
  (1 <= n)%nat -> String.length bs = n ->
  (forall j, (j < n)%nat -> exists b, String.get j bs = Some (bitchar b)) ->
  (forall k, (k < 2 ^ n)%nat -> psi k = two_level (state_of_bits bs) ab k) ->
  forall k, (k < 2 ^ n)%nat ->
    run (diffuser_gates n) (run (oracle_gates n bs) psi) k
    = two_level (state_of_bits bs) (grover_step (2 ^ n) ab) k.
Proof.
  intros Hn Hlen Hbin Hpsi k Hk.
  set (t := state_of_bits bs) in *.
  assert (Ht : (t < 2 ^ n)%nat) by (unfold t; rewrite <- Hlen; apply state_of_bits_lt).
  assert (Hphi : forall j, (j < 2 ^ n)%nat ->
            run (oracle_gates n bs) psi j = two_level t (- fst ab, snd ab)%R j).
  { intros j Hj. rewrite run_oracle_gates by assumption. fold t.
    rewrite (Hpsi j Hj). unfold two_level. simpl.
    destruct (j =? t)%nat; Calg. }
  rewrite diffuser_gates_reflect by assumption.
  unfold reflect_about_mean, mean.
  rewrite (amplitude_sum_ext _ (two_level t (- fst ab, snd ab)%R)) by exact Hphi.
  rewrite amplitude_sum_two_level, (Hphi k Hk), INR_pow2.
  destruct (Nat.ltb_spec t (2 ^ n)) as [_|]; [|lia].
  pose proof (pow2_nonzero n) as HN.
  unfold two_level, grover_step, RtoC, Copp, Csub, Cscale. simpl.
  destruct (k =? t)%nat; apply f_equal2; try ring; field; exact HN.
Qed.

Lemma grover_blocks_S o d n k :
  grover_blocks o d n (S k)
  = [to_instruction o (seq 0 n); to_instruction d (seq 0 n)] ++ grover_blocks o d n k.
Proof. reflexivity. Qed.

Lemma run_grover_blocks n bs lo ld k psi ab :
  (1 <= n)%nat -> String.length bs = n ->
  (forall j, (j < n)%nat -> exists b, String.get j bs = Some (bitchar b)) ->
  (forall i, (i < 2 ^ n)%nat -> psi i = two_level (state_of_bits bs) ab i) ->
  forall i, (i < 2 ^ n)%nat ->
    run (grover_blocks (mkCircuit n 0 lo (oracle_gates n bs))
                       (mkCircuit n 0 ld (diffuser_gates n)) n k) psi i
    = two_level (state_of_bits bs) (Nat.iter k (grover_step (2 ^ n)) ab) i.
Proof.
  intros Hn Hlen Hbin. revert psi ab.
  induction k as [|k IH]; intros psi ab Hpsi i Hi.
  - simpl. now apply Hpsi.
  - rewrite grover_blocks_S, run_app, Nat.iter_succ_r.
    apply IH; [|exact Hi].
    intros j Hj. unfold to_instruction. cbn [name data num_qubits].
    change [Composite lo (oracle_gates n bs) n (seq 0 n);
            Composite ld (diffuser_gates n) n (seq 0 n)]
      with ([Composite lo (oracle_gates n bs) n (seq 0 n)]
              ++ [Composite ld (diffuser_gates n) n (seq 0 n)]).
    rewrite run_app, !run_composite
      by (first [now apply primitive_oracle_gates | now apply primitive_diffuser_gates]).
    now apply grover_round_two_level.
Qed.

(** The state before the measurement, for every register size, marked
    index and iteration count: one amplitude on the oracle's state [t], one
    common amplitude on all other basis states, both given by iterating
    [grover_step] from the uniform superposition. *)
Lemma build_grover_circuit_state (n m it : Z) :
  1 <= n -> 0 <= m < 2 ^ n ->
  exists qc bs,
    build_grover_circuit n m it = Ok qc
    /\ index_to_bitstring m n = Ok bs
    /\ (state_of_bits bs < 2 ^ Z.to_nat n)%nat
    /\ forall k, (k < 2 ^ Z.to_nat n)%nat ->
         run_circuit qc initial_state k
         = two_level (state_of_bits bs)
             (grover_amplitudes (Z.to_nat n) (Z.to_nat it)) k.
Proof.
  intros Hn Hm.
  destruct (build_grover_circuit_Z n m it Hn Hm)
    as (o & d & bs & Ho & Hd & Hbs & Hdo & Hdd & Hg & _).
  destruct (build_oracle_data n m Hn Hm) as (o' & bs' & Ho' & Hbs' & Hlen & Hget & Hq & _).
  rewrite Ho in Ho'. injection Ho' as <-.
  rewrite Hbs in Hbs'. injection Hbs' as <-.
  set (N := Z.to_nat n) in *.
  assert (HN1 : (1 <= N)%nat) by lia.
  pose proof (build_diffuser_ok N HN1) as Hd'.
  unfold N in Hd'. rewrite Z_of_nat_to_nat in Hd' by exact Hn. fold N in Hd'.
  rewrite Hd in Hd'. injection Hd' as ->.
  eexists. exists bs. split; [exact Hg|]. split; [exact Hbs|].
  split; [rewrite <- Hlen; apply state_of_bits_lt|].
  intros k Hk. unfold run_circuit. simpl data.
  rewrite !run_app, run_measure_gates.
  change (run (map HGate (seq 0 N)) initial_state) with (h_layer N initial_state).
  rewrite h_layer_initial.
  destruct o as [oq oc oname odata]. simpl in Hdo, Hq. subst odata oq.
  assert (Hoc : oc = 0%nat).
  { destruct (build_oracle_ok N m HN1) as (bs2 & _ & _ & Ho2).
    - unfold N. rewrite Z_of_nat_to_nat by exact Hn. exact Hm.
    - unfold N in Ho2. rewrite Z_of_nat_to_nat in Ho2 by exact Hn.
      rewrite Ho in Ho2. now injection Ho2. }
  subst oc.
  apply (run_grover_blocks N bs); try assumption.
  - intros j Hj. eexists. apply (Hget j Hj).
  - intros i Hi. unfold uniform, two_level.
    destruct (Nat.ltb_spec i (2 ^ N)); [|lia].
    now destruct (i =? state_of_bits bs)%nat.
Qed.

Lemma uniform_amplitude_sqr n : (/ sqrt (2 ^ n) * / sqrt (2 ^ n) = / 2 ^ n)%R.
Proof. rewrite <- rsqrt2_pow. apply rsqrt2_pow_sqr. Qed.

Lemma grover_step_norm N ab :
  (N <> 0)%R ->
  let ab' := grover_step N ab in
  (fst ab' * fst ab' + (N - 1) * (snd ab' * snd ab')
   = fst ab * fst ab + (N - 1) * (snd ab * snd ab))%R.
Proof. intro HN. unfold grover_step. simpl. field. exact HN. Qed.

Lemma grover_amplitudes_norm n it :
  let ab := grover_amplitudes n it in
  (fst ab * fst ab + (2 ^ n - 1) * (snd ab * snd ab) = 1)%R.
Proof.
  unfold grover_amplitudes. induction it as [|it IH].
  - simpl. pose proof (uniform_amplitude_sqr n) as Hu.
    pose proof (pow2_nonzero n) as HN.
    set (u := (/ sqrt (2 ^ n))%R) in *.
    replace (u * u + (2 ^ n - 1) * (u * u))%R with (2 ^ n * (u * u))%R by ring.
    rewrite Hu. field. exact HN.
  - rewrite Nat.iter_succ. cbv zeta in *.
    rewrite (grover_step_norm (2 ^ n)) by apply pow2_nonzero. exact IH.
Qed.

(** X5.  For every register size [n >= 1], marked index in range and iteration
    count, the state before the measurement has one amplitude [a] on a basis
    state [t] (the one the oracle negates) and one common amplitude [b] on
    all the others; [(a, b)] starts at [(1/sqrt N, 1/sqrt N)] with
    [N = 2^n] and each round replaces it by [(-a - 2 mu, b - 2 mu)] with
    [mu = (-a + (N - 1) b) / N].  In particular all wrong outcomes are
    equally likely. *)
Theorem grover_state_has_two_amplitudes (n marked_index iterations : Z) :
  1 <= n -> 0 <= marked_index < 2 ^ n ->
  exists qc oracle t,
    build_grover_circuit n marked_index iterations = Ok qc
    /\ build_oracle n marked_index = Ok oracle
    /\ (t < 2 ^ Z.to_nat n)%nat
    /\ (forall psi k, (k < 2 ^ Z.to_nat n)%nat ->
          run_circuit oracle psi k = if (k =? t)%nat then Copp (psi k) else psi k)
    /\ (forall k, (k < 2 ^ Z.to_nat n)%nat ->
          run_circuit qc initial_state k
          = RtoC (if (k =? t)%nat
                  then fst (grover_amplitudes (Z.to_nat n) (Z.to_nat iterations))
                  else snd (grover_amplitudes (Z.to_nat n) (Z.to_nat iterations))))
    /\ (forall j k, (j < 2 ^ Z.to_nat n)%nat -> (k < 2 ^ Z.to_nat n)%nat ->
          j <> t -> k <> t ->
          probability (run_circuit qc initial_state) j
          = probability (run_circuit qc initial_state) k).
Proof.
  intros Hn Hm.
  destruct (build_grover_circuit_state n marked_index iterations Hn Hm)
    as (qc & bs & Hg & Hbs & Hlt & Hst).
  assert (HN : Z.of_nat (Z.to_nat n) = n) by (apply Z_of_nat_to_nat; exact Hn).
  destruct (build_oracle_run (Z.to_nat n) marked_index)
    as (o & bs' & Ho & Hbs' & _ & _ & _ & Hrun); [lia | rewrite HN; exact Hm |].
  rewrite HN in Ho, Hbs'. rewrite Hbs in Hbs'. injection Hbs' as <-.
  exists qc, o, (state_of_bits bs).
  split; [exact Hg|]. split; [exact Ho|]. split; [exact Hlt|]. split; [exact Hrun|].
  split; [exact Hst|].
  intros j k Hj Hk Hjt Hkt. unfold probability.
  rewrite (Hst j Hj), (Hst k Hk). unfold two_level.
  destruct (Nat.eqb_spec j (state_of_bits bs)); [contradiction|].
  destruct (Nat.eqb_spec k (state_of_bits bs)); [contradiction|]. reflexivity.
Qed.

Lemma grover_state_has_two_amplitudes_witness :
  (1 <= 2 /\ 0 <= 3 < 2 ^ 2) /\
  exists qc,
    build_grover_circuit 2 3 5 = Ok qc
    /\ probability (run_circuit qc initial_state) 0%nat
       = probability (run_circuit qc initial_state) 1%nat.
Proof.
  assert (H : 1 <= 2 /\ 0 <= 3 < 2 ^ 2) by (simpl; lia).
  split; [exact H|]. destruct H as [H1 H2].
  destruct (grover_state_has_two_amplitudes 2 3 5 H1 H2)
    as (qc & o & t & Hg & Ho & Hlt & Hrun & _ & Heq).
  exists qc. split; [exact Hg|].
  assert (Ht : t = 3%nat).
  { assert (Eo : Ok o = build_oracle 2 3) by (symmetry; exact Ho).
    vm_compute in Eo. injection Eo as ->.
    pose proof (Hrun (uniform 2) 3%nat) as H3.
    destruct (Nat.eqb_spec 3 t) as [<-|Hne]; [reflexivity|].
    exfalso.
    assert (Hk : (3 < 2 ^ Z.to_nat 2)%nat) by (simpl; lia).
    specialize (H3 Hk).
    unfold run_circuit in H3. simpl data in H3.
    change [HGate 1; MCXGate [0%nat] 1; HGate 1] with (mcz_gates 2) in H3.
    rewrite run_mcz_gates_low in H3 by (simpl; lia).
    simpl Nat.eqb in H3.
    apply (uniform_nonzero 2 3); [simpl; lia | exact H3]. }
  apply Heq; simpl; lia.
Defined.

(** X6.  Whatever the iteration count, the state before the measurement is
    normalised: the probabilities of the [2^n] outcomes add up to 1. *)
Theorem grover_state_is_normalised (n marked_index iterations : Z) :
  1 <= n -> 0 <= marked_index < 2 ^ n ->
  exists qc,
    build_grover_circuit n marked_index iterations = Ok qc
    /\ total_probability (Z.to_nat n) (run_circuit qc initial_state) = 1%R.
Proof.
  intros Hn Hm.
  destruct (build_grover_circuit_state n marked_index iterations Hn Hm)
    as (qc & bs & Hg & _ & Hlt & Hst).
  exists qc. split; [exact Hg|].
  unfold total_probability.
  rewrite (probability_sum_ext _ _ _ Hst), probability_sum_two_level, INR_pow2.
  destruct (Nat.ltb_spec (state_of_bits bs) (2 ^ Z.to_nat n)); [|lia].
  apply grover_amplitudes_norm.
Qed.

Lemma grover_state_is_normalised_witness :
  (1 <= 3 /\ 0 <= 5 < 2 ^ 3) /\
  exists qc,
    build_grover_circuit 3 5 2 = Ok qc
    /\ total_probability (Z.to_nat 3) (run_circuit qc initial_state) = 1%R.
Proof.
  assert (H : 1 <= 3 /\ 0 <= 5 < 2 ^ 3) by (simpl; lia).
  split; [exact H|]. destruct H as [H1 H2].
  exact (grover_state_is_normalised 3 5 2 H1 H2).
Defined.

(** ** What the search achieves *)

Lemma pow2_ge_4 n : (2 <= n)%nat -> (4 <= 2 ^ n)%R.
Proof.
  intro Hn. replace n with (2 + (n - 2))%nat by lia.
  rewrite pow_add.
  assert (1 <= 2 ^ (n - 2))%R by (apply pow_R1_Rle; lra).
  simpl. lra.
Qed.

Lemma grover_one_round_probability n :
  let a := fst (grover_amplitudes n 1) in
  (a * a = (3 * 2 ^ n - 4) * (3 * 2 ^ n - 4) / (2 ^ n * 2 ^ n * 2 ^ n))%R.
Proof.
  unfold grover_amplitudes, grover_step. simpl.
  pose proof (uniform_amplitude_sqr n) as Hu.
  pose proof (pow2_nonzero n) as HN.
  set (u := (/ sqrt (2 ^ n))%R) in *. set (N := (2 ^ n)%R) in *.
  replace ((- u - 2 * ((- u + (N - 1) * u) / N))
           * (- u - 2 * ((- u + (N - 1) * u) / N)))%R
    with ((u * u) * ((3 * N - 4) * (3 * N - 4) / (N * N)))%R by (field; exact HN).
  rewrite Hu. field. exact HN.
Qed.

(** X7.  One round amplifies: for [n >= 2] (and a marked index in range) the
    state the oracle negates is found with probability
    [(3N - 4)^2 / N^3], [N = 2^n], which is more than the [1/N] of a blind
    guess. *)
Theorem grover_one_iteration_amplifies (n marked_index : Z) :
  2 <= n -> 0 <= marked_index < 2 ^ n ->
  exists qc oracle t,
    build_grover_circuit n marked_index 1 = Ok qc
    /\ build_oracle n marked_index = Ok oracle
    /\ (t < 2 ^ Z.to_nat n)%nat
    /\ run_circuit oracle (uniform (Z.to_nat n)) t = Copp (uniform (Z.to_nat n) t)
    /\ probability (run_circuit qc initial_state) t
       = ((3 * 2 ^ Z.to_nat n - 4) * (3 * 2 ^ Z.to_nat n - 4)
          / (2 ^ Z.to_nat n * 2 ^ Z.to_nat n * 2 ^ Z.to_nat n))%R
    /\ (/ 2 ^ Z.to_nat n < probability (run_circuit qc initial_state) t)%R.
Proof.
  intros Hn Hm.
  assert (Hn1 : 1 <= n) by lia.
  destruct (build_grover_circuit_state n marked_index 1 Hn1 Hm)
    as (qc & bs & Hg & Hbs & Hlt & Hst).
  assert (HN : Z.of_nat (Z.to_nat n) = n) by (apply Z_of_nat_to_nat; exact Hn1).
  destruct (build_oracle_run (Z.to_nat n) marked_index)
    as (o & bs' & Ho & Hbs' & _ & _ & _ & Hrun); [lia | rewrite HN; exact Hm |].
  rewrite HN in Ho, Hbs'. rewrite Hbs in Hbs'. injection Hbs' as <-.
  exists qc, o, (state_of_bits bs).
  split; [exact Hg|]. split; [exact Ho|]. split; [exact Hlt|]. split.
  { rewrite Hrun by exact Hlt. now rewrite Nat.eqb_refl. }
  assert (Hp : probability (run_circuit qc initial_state) (state_of_bits bs)
               = ((3 * 2 ^ Z.to_nat n - 4) * (3 * 2 ^ Z.to_nat n - 4)
                  / (2 ^ Z.to_nat n * 2 ^ Z.to_nat n * 2 ^ Z.to_nat n))%R).
  { unfold probability. rewrite (Hst _ Hlt). unfold two_level.
    rewrite Nat.eqb_refl. change (Z.to_nat 1) with 1%nat.
    rewrite <- grover_one_round_probability. unfold Cnorm2, RtoC. simpl. ring. }
  split; [exact Hp|]. rewrite Hp.
  assert (H4 : (4 <= 2 ^ Z.to_nat n)%R) by (apply pow2_ge_4; lia).
  set (N := (2 ^ Z.to_nat n)%R) in *.
  replace (/ N)%R with (N * N / (N * N * N))%R by (field; lra).
  apply Rmult_lt_compat_r.
  - apply Rinv_0_lt_compat. repeat apply Rmult_lt_0_compat; lra.
  - nra.
Qed.

Lemma grover_one_iteration_amplifies_witness :
  (2 <= 3 /\ 0 <= 5 < 2 ^ 3) /\
  exists qc t,
    build_grover_circuit 3 5 1 = Ok qc
    /\ (/ 2 ^ Z.to_nat 3 < probability (run_circuit qc initial_state) t)%R.
Proof.
  assert (H : 2 <= 3 /\ 0 <= 5 < 2 ^ 3) by (simpl; lia).
  split; [exact H|]. destruct H as [H1 H2].
  destruct (grover_one_iteration_amplifies 3 5 H1 H2)
    as (qc & o & t & Hg & _ & _ & _ & _ & Hgt).
  exists qc, t. split; [exact Hg | exact Hgt].
Defined.

(** X8.  With no round at all (an iteration count of 0 or less) every one of the
    [2^n] outcomes has probability [1/2^n]: the result says nothing about
    the marked index. *)
Theorem grover_no_iterations_is_uniform (n marked_index iterations : Z) (k : nat) :
  1 <= n -> 0 <= marked_index < 2 ^ n -> iterations <= 0 ->
  (k < 2 ^ Z.to_nat n)%nat ->
  exists qc,
    build_grover_circuit n marked_index iterations = Ok qc
    /\ run_circuit qc initial_state k = uniform (Z.to_nat n) k
    /\ probability (run_circuit qc initial_state) k = (/ 2 ^ Z.to_nat n)%R.
Proof.
  intros Hn Hm Hit Hk.
  destruct (build_grover_circuit_state n marked_index iterations Hn Hm)
    as (qc & bs & Hg & _ & _ & Hst).
  exists qc. split; [exact Hg|].
  assert (Hu : run_circuit qc initial_state k = uniform (Z.to_nat n) k).
  { rewrite (Hst k Hk). replace (Z.to_nat iterations) with 0%nat by lia.
    unfold two_level, grover_amplitudes, uniform. simpl Nat.iter.
    destruct (Nat.ltb_spec k (2 ^ Z.to_nat n)); [|lia].
    now destruct (k =? state_of_bits bs)%nat. }
  split; [exact Hu|]. unfold probability. rewrite Hu.
  now apply uniform_norm2.
Qed.

Lemma grover_no_iterations_is_uniform_witness :
  (1 <= 2 /\ 0 <= 2 < 2 ^ 2 /\ 0 <= 0 /\ (3 < 2 ^ Z.to_nat 2)%nat) /\
  exists qc,
    build_grover_circuit 2 2 0 = Ok qc
    /\ probability (run_circuit qc initial_state) 3%nat = (/ 2 ^ Z.to_nat 2)%R.
Proof.
  assert (H : 1 <= 2 /\ 0 <= 2 < 2 ^ 2 /\ 0 <= 0 /\ (3 < 2 ^ Z.to_nat 2)%nat)
    by (simpl; lia).
  split; [exact H|]. destruct H as (H1 & H2 & H3 & H4).
  destruct (grover_no_iterations_is_uniform 2 2 0 3 H1 H2 H3 H4) as (qc & Hg & _ & Hp).
  exists qc. split; [exact Hg | exact Hp].
Defined.

(** X9.  A register of one qubit (which the command line allows) cannot be
    searched: for [n = 1], whatever the marked index and the iteration
    count, both outcomes have probability 1/2. *)
Theorem grover_one_qubit_never_amplifies (marked_index iterations : Z) (k : nat) :
  0 <= marked_index < 2 -> (k < 2)%nat ->
  exists qc,
    build_grover_circuit 1 marked_index iterations = Ok qc
    /\ probability (run_circuit qc initial_state) k = (/ 2)%R.
Proof.
  intros Hm Hk.
  destruct (build_grover_circuit_state 1 marked_index iterations) as (qc & bs & Hg & _ & _ & Hst);
    [lia | simpl; lia |].
  exists qc. split; [exact Hg|].
  change (Z.to_nat 1) with 1%nat in Hst.
  unfold probability. rewrite (Hst k) by (simpl; lia).
  assert (Hinv : forall it,
            let ab := grover_amplitudes 1 it in
            (fst ab * fst ab = / 2 /\ snd ab * snd ab = / 2)%R).
  { intro it. unfold grover_amplitudes. induction it as [|it IH].
    - simpl. pose proof (uniform_amplitude_sqr 1) as Hu. simpl in Hu.
      replace (/ (2 * 1))%R with (/ 2)%R in Hu by (f_equal; ring).
      split; exact Hu.
    - rewrite Nat.iter_succ. cbv zeta in *. destruct IH as [Ha Hb].
      set (ab := Nat.iter it (grover_step (2 ^ 1)) (/ sqrt (2 ^ 1), / sqrt (2 ^ 1))%R) in *.
      assert (E1 : fst (grover_step (2 ^ 1) ab) = (- snd ab)%R)
        by (unfold grover_step; simpl; field).
      assert (E2 : snd (grover_step (2 ^ 1) ab) = fst ab)
        by (unfold grover_step; simpl; field).
      rewrite E1, E2. split; [|exact Ha].
      replace (- snd ab * - snd ab)%R with (snd ab * snd ab)%R by ring. exact Hb. }
  destruct (Hinv (Z.to_nat iterations)) as [Ha Hb].
  unfold two_level, Cnorm2, RtoC. simpl.
  destruct (k =? state_of_bits bs)%nat; lra.
Qed.

Lemma grover_one_qubit_never_amplifies_witness :
  (0 <= 1 < 2 /\ (1 < 2)%nat) /\
  exists qc,
    build_grover_circuit 1 1 7 = Ok qc
    /\ probability (run_circuit qc initial_state) 1%nat = (/ 2)%R.
Proof.
  assert (H : 0 <= 1 < 2 /\ (1 < 2)%nat) by lia.
  split; [exact H|]. destruct H as [H1 H2].
  exact (grover_one_qubit_never_amplifies 1 7 1%nat H1 H2).
Defined.

(** ** [run_grover] with its default iteration count *)

Lemma grover_amplitudes_2_1 :
  (fst (grover_amplitudes 2 1) * fst (grover_amplitudes 2 1) = 1)%R.
Proof.
  pose proof (grover_one_round_probability 2) as H. cbv zeta in H.
  rewrite H. simpl. field.
Qed.

Lemma grover_amplitudes_3_2 :
  (fst (grover_amplitudes 3 2) * fst (grover_amplitudes 3 2) = 121 / 128)%R.
Proof.
  pose proof (uniform_amplitude_sqr 3) as Hu.
  unfold grover_amplitudes.
  generalize dependent (/ sqrt (2 ^ 3))%R. intros u Hu.
  assert (E : fst (Nat.iter 2 (grover_step (2 ^ 3)) (u, u)) = (11 / 4 * u)%R)
    by (unfold grover_step; simpl; field).
  rewrite E.
  replace (11 / 4 * u * (11 / 4 * u))%R with (121 / 16 * (u * u))%R by field.
  rewrite Hu. simpl. field.
Qed.

(** X10.  Called without an iteration count, [run_grover] takes the recommended
    one.  For two qubits the run then ends in the state the oracle negates
    with probability 1, for three qubits with probability 121/128, whatever
    the marked index. *)
Theorem run_grover_default_finds_oracle_state (n marked : Z) :
  n = 2 \/ n = 3 -> 0 <= marked < 2 ^ n ->
  exists qc oracle t,
    run_grover_circuit n marked None = Ok qc
    /\ (exists it, recommend_iterations n = Ok it
                   /\ build_grover_circuit n marked it = Ok qc)
    /\ build_oracle n marked = Ok oracle
    /\ (t < 2 ^ Z.to_nat n)%nat
    /\ run_circuit oracle (uniform (Z.to_nat n)) t = Copp (uniform (Z.to_nat n) t)
    /\ (n = 2 -> probability (run_circuit qc initial_state) t = 1%R)
    /\ (n = 3 -> probability (run_circuit qc initial_state) t = (121 / 128)%R).
Proof.
  intros Hn Hm.
  assert (Hn1 : 1 <= n) by lia.
  assert (Hit : recommend_iterations n = Ok (n - 1)).
  { destruct Hn as [->| ->]; vm_compute; reflexivity. }
  destruct (build_grover_circuit_state n marked (n - 1) Hn1 Hm)
    as (qc & bs & Hg & Hbs & Hlt & Hst).
  assert (HN : Z.of_nat (Z.to_nat n) = n) by (apply Z_of_nat_to_nat; exact Hn1).
  destruct (build_oracle_run (Z.to_nat n) marked)
    as (o & bs' & Ho & Hbs' & _ & _ & _ & Hrun); [lia | rewrite HN; exact Hm |].
  rewrite HN in Ho, Hbs'. rewrite Hbs in Hbs'. injection Hbs' as <-.
  exists qc, o, (state_of_bits bs).
  split; [unfold run_grover_circuit; rewrite Hit; exact Hg|].
  split; [exists (n - 1); split; [exact Hit | exact Hg]|].
  split; [exact Ho|]. split; [exact Hlt|].
  split; [rewrite Hrun by exact Hlt; now rewrite Nat.eqb_refl|].
  specialize (Hst _ Hlt). unfold probability. rewrite Hst.
  unfold two_level. rewrite Nat.eqb_refl. unfold Cnorm2, RtoC. simpl Re. simpl Im.
  split; intros ->.
  - change (Z.to_nat 2) with 2%nat. change (Z.to_nat (2 - 1)) with 1%nat.
    pose proof grover_amplitudes_2_1 as E. rewrite Rmult_0_l, Rplus_0_r. exact E.
  - change (Z.to_nat 3) with 3%nat. change (Z.to_nat (3 - 1)) with 2%nat.
    pose proof grover_amplitudes_3_2 as E. rewrite Rmult_0_l, Rplus_0_r. exact E.
Qed.

Lemma run_grover_default_finds_oracle_state_witness :
  ((3 = 2 \/ 3 = 3) /\ 0 <= 5 < 2 ^ 3) /\
  exists qc t,
    run_grover_circuit 3 5 None = Ok qc
    /\ probability (run_circuit qc initial_state) t = (121 / 128)%R.
Proof.
  assert (H : (3 = 2 \/ 3 = 3) /\ 0 <= 5 < 2 ^ 3) by (simpl; lia).
  split; [exact H|]. destruct H as [H1 H2].
  destruct (run_grover_default_finds_oracle_state 3 5 H1 H2)
    as (qc & o & t & Hg & _ & _ & _ & _ & _ & H3).
  exists qc, t. split; [exact Hg | apply H3; reflexivity].
Defined.

(** ** The counts key of the state that is found *)


Lemma fold_measures_low k j :
  forall q,
    Nat.testbit
      (fold_left
         (fun v g =>
            match g with
            | Measure q' c => if Nat.testbit k q' then Nat.setbit v c else Nat.clearbit v c
            | _ => v
            end) (map (fun i => Measure i i) (seq 0 j)) 0%nat) q
    = Nat.testbit k q && (q <? j)%nat.
Proof.
  induction j as [|j IH]; intro q.
  - simpl. rewrite Nat.bits_0. now rewrite andb_false_r.
  - rewrite seq_S, map_app, fold_left_app. simpl.
    destruct (Nat.testbit k j) eqn:Hb.
    + rewrite Nat.setbit_eqb, IH.
      destruct (Nat.eqb_spec j q) as [<-|Hne].
      * rewrite Hb. simpl. symmetry. apply Nat.ltb_lt. lia.
      * simpl. f_equal.
        destruct (Nat.ltb_spec q j), (Nat.ltb_spec q (S j)); try reflexivity; lia.
    + rewrite Nat.clearbit_eqb, IH.
      destruct (Nat.eqb_spec j q) as [<-|Hne].
      * rewrite Hb. reflexivity.
      * simpl. rewrite andb_true_r. f_equal.
        destruct (Nat.ltb_spec q j), (Nat.ltb_spec q (S j)); try reflexivity; lia.
Qed.

Lemma classical_value_measure_gates n k :
  (k < 2 ^ n)%nat -> classical_value (measure_gates n) k = k.
Proof.
  intro Hk. apply Nat.bits_inj. intro q.
  unfold classical_value, measure_gates. rewrite fold_measures_low.
  destruct (Nat.ltb_spec q n); [apply andb_true_r|].
  rewrite (testbit_high k n q) by assumption. reflexivity.
Qed.

Lemma classical_value_skip gs ms k :
  forallb (fun g => negb (is_measure g)) gs = true ->
  classical_value (gs ++ ms) k = classical_value ms k.
Proof.
  intro H. unfold classical_value. rewrite fold_left_app. f_equal.
  induction gs as [|g gs IH]; [reflexivity|].
  simpl in H. apply andb_true_iff in H as [Hg Hgs].
  simpl. destruct g; try discriminate; now apply IH.
Qed.

Lemma no_measure_primitive_map (mk : nat -> instruction) l :
  (forall q, is_measure (mk q) = false) ->
  forallb (fun g => negb (is_measure g)) (map mk l) = true.
Proof.
  intro H. induction l as [|a l IH]; simpl; [reflexivity|]. now rewrite H, IH.
Qed.

Lemma no_measure_mcz_gates n :
  forallb (fun g => negb (is_measure g)) (mcz_gates n) = true.
Proof. unfold mcz_gates. now destruct (n =? 1)%nat. Qed.

Lemma no_measure_oracle_gates n bs :
  forallb (fun g => negb (is_measure g)) (oracle_gates n bs) = true.
Proof.
  unfold oracle_gates, x_gates. rewrite x_gates_from_map.
  rewrite !forallb_app, no_measure_mcz_gates.
  now rewrite no_measure_primitive_map.
Qed.

Lemma no_measure_diffuser_gates n :
  forallb (fun g => negb (is_measure g)) (diffuser_gates n) = true.
Proof.
  unfold diffuser_gates.
  rewrite !forallb_app, no_measure_mcz_gates.
  now rewrite !no_measure_primitive_map.
Qed.

Lemma no_measure_rounds gs k :
  forallb (fun g => negb (is_measure g)) gs = true ->
  forallb (fun g => negb (is_measure g)) (List.concat (repeat gs k)) = true.
Proof.
  intro H. induction k as [|k IH]; simpl; [reflexivity|].
  now rewrite forallb_app, H, IH.
Qed.

Lemma get_beyond s j : (String.length s <= j)%nat -> String.get j s = None.
Proof.
  revert j; induction s as [|c s IH]; intros j Hj; simpl; [reflexivity|].
  destruct j as [|j]; [simpl in Hj; lia|]. apply IH. simpl in Hj. lia.
Qed.

Lemma length_string_rev s : String.length (string_rev s) = String.length s.
Proof.
  induction s as [|c s IH]; simpl; [reflexivity|].
  rewrite length_append, IH. simpl. lia.
Qed.

Lemma get_string_rev s j :
  (j < String.length s)%nat ->
  String.get j (string_rev s) = String.get (String.length s - 1 - j) s.
Proof.
  revert j; induction s as [|c s IH]; intros j Hj; simpl in *; [lia|].
  destruct (Nat.lt_ge_cases j (String.length s)) as [Hlt|Hge].
  - rewrite get_append_l by (rewrite length_string_rev; exact Hlt).
    rewrite IH by exact Hlt.
    replace (String.length s - 0 - j)%nat with (S (String.length s - 1 - j)) by lia.
    reflexivity.
  - replace j with (String.length (string_rev s) + 0)%nat
      by (rewrite length_string_rev; lia).
    rewrite get_append_r. rewrite length_string_rev.
    replace (String.length s - 0 - (String.length s + 0))%nat with 0%nat by lia.
    reflexivity.
Qed.

(** X11.  After the measurement the classical register holds the index of the
    basis state found, so an outcome is filed under the binary numeral of
    that index.  For the state [t] that the oracle negates this key is the
    bit text of the marked index read backwards. *)
Theorem oracle_state_key_is_reversed_bitstring (n marked_index iterations : Z) :
  1 <= n -> 0 <= marked_index < 2 ^ n ->
  exists qc oracle bs t,
    build_grover_circuit n marked_index iterations = Ok qc
    /\ build_oracle n marked_index = Ok oracle
    /\ index_to_bitstring marked_index n = Ok bs
    /\ (t < 2 ^ Z.to_nat n)%nat
    /\ run_circuit oracle (uniform (Z.to_nat n)) t = Copp (uniform (Z.to_nat n) t)
    /\ (forall k, (k < 2 ^ Z.to_nat n)%nat ->
          classical_value (gate_sequence qc) k = k)
    /\ counts_key (Z.to_nat n) (classical_value (gate_sequence qc) t) = string_rev bs.
Proof.
  intros Hn Hm.
  set (N := Z.to_nat n).
  assert (HN : Z.of_nat N = n) by (apply Z_of_nat_to_nat; exact Hn).
  destruct (build_grover_circuit_Z n marked_index iterations Hn Hm)
    as (o & d & bs & Ho & Hd & Hbs & Hdo & Hdd & Hg & Hseq).
  destruct (build_oracle_run N marked_index)
    as (o' & bs' & Ho' & Hbs' & _ & Hlt & Hbits & Hrun); [lia | rewrite HN; exact Hm |].
  rewrite HN in Ho', Hbs'. rewrite Ho in Ho'. injection Ho' as <-.
  rewrite Hbs in Hbs'. injection Hbs' as <-.
  destruct (index_to_bitstring_in_range marked_index n Hn Hm) as (bs2 & Hbs2 & Hlen & Hget).
  rewrite Hbs in Hbs2. injection Hbs2 as <-. fold N in Hlen, Hget.
  assert (Hcv : forall k, (k < 2 ^ N)%nat ->
            classical_value
              (gate_sequence
                 (mkCircuit N N None
                    (map HGate (seq 0 N) ++ grover_blocks o d N (Z.to_nat iterations)
                       ++ measure_gates N))) k = k).
  { intros k Hk. fold N in Hseq. rewrite Hseq, app_assoc.
    rewrite classical_value_skip; [now apply classical_value_measure_gates|].
    rewrite forallb_app, no_measure_primitive_map by reflexivity.
    apply no_measure_rounds. rewrite forallb_app, Hdo, Hdd.
    fold N. now rewrite no_measure_oracle_gates, no_measure_diffuser_gates. }
  eexists. exists o, bs, (state_of_bits bs).
  split; [exact Hg|]. split; [exact Ho|]. split; [exact Hbs|].
  split; [exact Hlt|].
  split; [rewrite Hrun by exact Hlt; now rewrite Nat.eqb_refl|].
  split; [exact Hcv|].
  rewrite Hcv by exact Hlt.
  destruct (index_to_bitstring_in_range (Z.of_nat (state_of_bits bs)) n)
    as (key & Hkey & Hklen & Hkget); [exact Hn | split; [lia|] |].
  { assert (Hp : Z.of_nat (2 ^ N) = 2 ^ Z.of_nat N)
      by (rewrite Nat2Z.inj_pow; reflexivity).
    rewrite <- HN, <- Hp. lia. }
  unfold counts_key. fold N in Hklen, Hkget.
  unfold index_to_bitstring in Hkey. rewrite HN, Hkey.
  apply get_correct. intro j.
  destruct (Nat.lt_ge_cases j N) as [Hj|Hj].
  - rewrite (Hkget j Hj), get_string_rev by lia.
    rewrite Hlen, Hget by lia.
    replace (n - 1 - Z.of_nat j) with (Z.of_nat (N - 1 - j)) by lia.
    rewrite Ztestbit_of_nat, Hbits by lia.
    do 3 f_equal. lia.
  - rewrite !get_beyond; [reflexivity | rewrite length_string_rev; lia | lia].
Qed.

Lemma oracle_state_key_is_reversed_bitstring_witness :
  (1 <= 3 /\ 0 <= 6 < 2 ^ 3) /\
  exists qc t,
    build_grover_circuit 3 6 2 = Ok qc
    /\ counts_key (Z.to_nat 3) (classical_value (gate_sequence qc) t) = "011".
Proof.
  assert (H : 1 <= 3 /\ 0 <= 6 < 2 ^ 3) by (simpl; lia).
  split; [exact H|]. destruct H as [H1 H2].
  destruct (oracle_state_key_is_reversed_bitstring 3 6 2 H1 H2)
    as (qc & o & bs & t & Hg & _ & Hbs & _ & _ & _ & Hkey).
  exists qc, t. split; [exact Hg|]. rewrite Hkey.
  assert (E : Ok bs = index_to_bitstring 6 3) by (symmetry; exact Hbs).
  vm_compute in E. injection E as ->. reflexivity.
Defined.

(** ** The bit text determines the index *)

Lemma binary_value_from_append acc s t :
  binary_value_from acc (s ++ t) = binary_value_from (binary_value_from acc s) t.
Proof. revert acc; induction s as [|c s IH]; intro acc; simpl; [reflexivity | apply IH]. Qed.

Lemma binary_value_from_zeros acc k t :
  binary_value_from acc (zeros k ++ t) = binary_value_from (2 ^ Z.of_nat k * acc) t.
Proof.
  revert acc; induction k as [|k IH]; intro acc.
  - simpl zeros. simpl append. f_equal. change (Z.of_nat 0) with 0. lia.
  - cbn [zeros append binary_value_from]. rewrite IH.
    change (Ascii.eqb "0" "1") with false. cbv iota.
    f_equal. rewrite Nat2Z.inj_succ, Z.pow_succ_r by lia. lia.
Qed.

Lemma binary_value_from_bin_digits p acc t :
  binary_value_from acc (bin_digits p t)
  = binary_value_from (2 ^ Z.of_nat (Pos.size_nat p) * acc + Zpos p) t.
Proof.
  revert acc t; induction p as [p IH|p IH|]; intros acc t; simpl bin_digits.
  - rewrite IH. cbn [binary_value_from]. change (Ascii.eqb "1" "1") with true.
    cbv iota. f_equal. simpl Pos.size_nat. rewrite Nat2Z.inj_succ, Z.pow_succ_r by lia. lia.
  - rewrite IH. cbn [binary_value_from]. change (Ascii.eqb "0" "1") with false.
    cbv iota. f_equal. simpl Pos.size_nat. rewrite Nat2Z.inj_succ, Z.pow_succ_r by lia. lia.
  - cbn [binary_value_from]. change (Ascii.eqb "1" "1") with true. cbv iota.
    f_equal; try (simpl; lia).
Qed.

Lemma binary_value_index_to_bitstring index n s :
  0 <= index -> index_to_bitstring index n = Ok s -> binary_value s = index.
Proof.
  intros Hi. unfold index_to_bitstring, format_0nb.
  destruct (n <? 0); [discriminate|].
  destruct (Z.ltb_spec index 0) as [|_]; [lia|].
  intro H. injection H as <-. simpl append at 1.
  unfold binary_value. rewrite binary_value_from_zeros, Z.mul_0_r.
  destruct index as [|p|p]; [reflexivity | | lia].
  simpl bin_abs. rewrite binary_value_from_bin_digits. simpl. lia.
Qed.

(** X12.  For a non-negative index and any width, the text returned, read as a
    binary numeral (Python's [int(s, 2)]), is the index again; so two
    different non-negative indices never get the same text, inside the
    range [[0, 2^n)] or above it. *)
Theorem index_to_bitstring_round_trip (i1 i2 n : Z) (s1 s2 : string) :
  0 <= i1 -> 0 <= i2 ->
  index_to_bitstring i1 n = Ok s1 -> index_to_bitstring i2 n = Ok s2 ->
  binary_value s1 = i1 /\ binary_value s2 = i2 /\ (s1 = s2 -> i1 = i2).
Proof.
  intros H1 H2 E1 E2.
  pose proof (binary_value_index_to_bitstring i1 n s1 H1 E1) as B1.
  pose proof (binary_value_index_to_bitstring i2 n s2 H2 E2) as B2.
  split; [exact B1|]. split; [exact B2|].
  intro Hs. rewrite <- B1, <- B2, Hs. reflexivity.
Qed.

Lemma index_to_bitstring_round_trip_witness :
  (0 <= 5 /\ 0 <= 9 /\ index_to_bitstring 5 3 = Ok "101"
   /\ index_to_bitstring 9 3 = Ok "1001") /\
  binary_value "101" = 5 /\ binary_value "1001" = 9.
Proof.
  assert (H : 0 <= 5 /\ 0 <= 9 /\ index_to_bitstring 5 3 = Ok "101"
              /\ index_to_bitstring 9 3 = Ok "1001")
    by (repeat split; try lia; reflexivity).
  split; [exact H|]. destruct H as (H1 & H2 & H3 & H4).
  destruct (index_to_bitstring_round_trip 5 9 3 "101" "1001" H1 H2 H3 H4)
    as (B1 & B2 & _).
  split; [exact B1 | exact B2].
Defined.

(** ** When the builders return a circuit *)

Lemma build_grover_circuit_oracle_error (N : nat) m it e :
  (1 <= N)%nat -> build_oracle (Z.of_nat N) m = Raise e ->
  build_grover_circuit (Z.of_nat N) m it = Raise e.
Proof.
  intros HN Ho. unfold build_grover_circuit.
  destruct (Z.ltb_spec (Z.of_nat N) 1) as [|_]; [lia|].
  unfold new_circuit. destruct (Z.ltb_spec (Z.of_nat N) 0) as [|_]; [lia|].
  simpl orb. cbv iota. cbn [bind].
  rewrite qc_h_all_range by (simpl; lia). cbn [bind].
  rewrite Ho. reflexivity.
Qed.

Lemma build_grover_circuit_out_of_range n m it :
  1 <= n -> ~ (0 <= m < 2 ^ n) ->
  build_grover_circuit n m it = Raise (ValueError "marked_index out of range").
Proof.
  intros Hn Hm.
  assert (Ho : build_oracle n m = Raise (ValueError "marked_index out of range")).
  { unfold build_oracle. rewrite ge_pow2_nonneg by lia.
    destruct (Z.ltb_spec m 0); [reflexivity|].
    destruct (Z.leb_spec (2 ^ n) m); [reflexivity | lia]. }
  rewrite <- (Z_of_nat_to_nat n Hn) in Ho |- *.
  apply build_grover_circuit_oracle_error; [lia | exact Ho].
Qed.

(** X13.  [build_grover_circuit] has three outcomes.  For [n < 1] it raises
    ValueError "n must be >= 1", whatever the marked index; for [n >= 1] and
    a marked index outside [[0, 2^n)] the oracle builder's ValueError
    "marked_index out of range" comes through; otherwise it returns a
    circuit.  The iteration count never causes an error. *)
Theorem build_grover_circuit_outcomes (n marked_index iterations : Z) :
  (n < 1 ->
   build_grover_circuit n marked_index iterations
   = Raise (ValueError "n must be >= 1"))
  /\ (1 <= n -> ~ (0 <= marked_index < 2 ^ n) ->
      build_grover_circuit n marked_index iterations
      = Raise (ValueError "marked_index out of range"))
  /\ ((exists qc, build_grover_circuit n marked_index iterations = Ok qc)
      <-> 1 <= n /\ 0 <= marked_index < 2 ^ n).
Proof.
  assert (H1 : n < 1 ->
               build_grover_circuit n marked_index iterations
               = Raise (ValueError "n must be >= 1")).
  { intro Hn. unfold build_grover_circuit.
    destruct (Z.ltb_spec n 1); [reflexivity | lia]. }
  split; [exact H1|].
  split; [apply build_grover_circuit_out_of_range|].
  split.
  - intros [qc Hok].
    destruct (Z.lt_ge_cases n 1) as [Hn|Hn].
    + rewrite (H1 Hn) in Hok. discriminate.
    + split; [lia|].
      destruct (Z.le_gt_cases 0 marked_index) as [Hlo|Hlo];
        destruct (Z.lt_ge_cases marked_index (2 ^ n)) as [Hhi|Hhi];
        try (split; assumption);
        rewrite build_grover_circuit_out_of_range in Hok by lia; discriminate.
  - intros [Hn Hm].
    destruct (build_grover_circuit_Z n marked_index iterations Hn Hm)
      as (o & d & bs & _ & _ & _ & _ & _ & Hg & _).
    eexists. exact Hg.
Qed.

Lemma build_grover_circuit_outcomes_witness :
  (1 <= 2 /\ ~ (0 <= 4 < 2 ^ 2)) /\
  build_grover_circuit 2 4 1 = Raise (ValueError "marked_index out of range").
Proof.
  assert (H : 1 <= 2 /\ ~ (0 <= 4 < 2 ^ 2)) by (simpl; lia).
  split; [exact H|]. destruct H as [H1 H2].
  destruct (build_grover_circuit_outcomes 2 4 1) as (_ & Hout & _).
  exact (Hout H1 H2).
Defined.

Lemma build_oracle_needs_qubit n m :
  n <= 0 -> ~ exists qc, build_oracle n m = Ok qc.
Proof.
  intros Hn [qc Hok].
  destruct (Z.eq_dec n 0) as [->|Hne].
  - destruct (Z.eq_dec m 0) as [->|Hm]; [discriminate Hok|].
    unfold build_oracle, ge_pow2 in Hok. simpl in Hok.
    destruct (Z.ltb_spec m 0); [discriminate|].
    destruct (Z.leb_spec 1 m); [discriminate | lia].
  - unfold build_oracle in Hok.
    destruct ((m <? 0) || ge_pow2 m n); [discriminate|].
    unfold index_to_bitstring, format_0nb in Hok.
    destruct (Z.ltb_spec n 0); [discriminate | lia].
Qed.

Lemma build_diffuser_needs_qubit n :
  n <= 0 -> ~ exists qc, build_diffuser n = Ok qc.
Proof.
  intros Hn [qc Hok].
  destruct (Z.eq_dec n 0) as [->|Hne]; [discriminate Hok|].
  unfold build_diffuser, new_circuit in Hok.
  destruct (Z.ltb_spec n 0); [discriminate | lia].
Qed.

(** X14.  The builders return a circuit exactly for a register of at least one
    qubit: [build_oracle] when moreover the marked index is in
    [[0, 2^n)], [build_diffuser] for every [n >= 1].  For [n <= 0] each of
    them ends in an exception. *)
Theorem builders_return_circuit_iff (n marked_index : Z) :
  ((exists qc, build_oracle n marked_index = Ok qc)
   <-> 1 <= n /\ 0 <= marked_index < 2 ^ n)
  /\ ((exists qc, build_diffuser n = Ok qc) <-> 1 <= n).
Proof.
  split; split.
  - intros Hok. destruct (Z.lt_ge_cases n 1) as [Hn|Hn].
    + exfalso. apply (build_oracle_needs_qubit n marked_index); [lia | exact Hok].
    + split; [lia|].
      destruct Hok as [qc Hok].
      destruct (Z.le_gt_cases 0 marked_index) as [Hlo|Hlo];
        destruct (Z.lt_ge_cases marked_index (2 ^ n)) as [Hhi|Hhi];
        try (split; assumption);
        unfold build_oracle in Hok; rewrite ge_pow2_nonneg in Hok by lia;
        destruct (Z.ltb_spec marked_index 0);
        destruct (Z.leb_spec (2 ^ n) marked_index);
        simpl in Hok; try discriminate; lia.
  - intros [Hn Hm].
    destruct (build_oracle_data n marked_index Hn Hm) as (o & _ & Ho & _).
    exists o. exact Ho.
  - intros Hok. destruct (Z.lt_ge_cases n 1) as [Hn|Hn]; [|lia].
    exfalso. apply (build_diffuser_needs_qubit n); [lia | exact Hok].
  - intro Hn. exists (mkCircuit (Z.to_nat n) 0 (Some "Diffuser") (diffuser_gates (Z.to_nat n))).
    rewrite <- (Z_of_nat_to_nat n Hn) at 1. apply build_diffuser_ok. lia.
Qed.

(** ** The command line *)

Lemma main_argparse n marked iterations :
  ~ (n = 1 \/ n = 2 \/ n = 3) -> main n marked iterations = ArgparseError.
Proof.
  intro H. unfold main. simpl existsb.
  destruct (Z.eqb_spec n 1); [lia|]. destruct (Z.eqb_spec n 2); [lia|].
  destruct (Z.eqb_spec n 3); [lia|]. reflexivity.
Qed.

Lemma main_in_choices n marked iterations :
  n = 1 \/ n = 2 \/ n = 3 ->
  main n marked iterations
  = if (marked <? 0) || (marked >=? 2 ^ n)
    then SystemExit ("Marked must be in [0, " ++ py_str (2 ^ n - 1) ++ "] for n="
                       ++ py_str n)%string
    else Called (run_grover_circuit n marked iterations).
Proof.
  intro H. unfold main. simpl existsb.
  destruct (Z.eqb_spec n 1); [reflexivity|].
  destruct (Z.eqb_spec n 2); [reflexivity|].
  destruct (Z.eqb_spec n 3); [reflexivity | lia].
Qed.

Lemma marked_check_spec n marked :
  (marked <? 0) || (marked >=? 2 ^ n) = true <-> ~ (0 <= marked < 2 ^ n).
Proof.
  destruct (Z.ltb_spec marked 0), (Z.geb_spec marked (2 ^ n)); simpl;
    split; intro; try reflexivity; try discriminate; try lia.
Qed.

(** X15.  Whatever is given on the command line, building the circuit raises
    nothing: a register size other than 1, 2, 3 is refused by argparse, a
    marked index outside [[0, 2^n)] ends the program with SystemExit, and in
    every other case [run_grover] gets its circuit, with or without an
    explicit iteration count. *)
Theorem main_never_raises_in_construction (n marked : Z) (iterations : option Z) :
  (main n marked iterations = ArgparseError <-> ~ (n = 1 \/ n = 2 \/ n = 3))
  /\ ((exists msg, main n marked iterations = SystemExit msg)
      <-> (n = 1 \/ n = 2 \/ n = 3) /\ ~ (0 <= marked < 2 ^ n))
  /\ (forall r, main n marked iterations = Called r -> exists qc, r = Ok qc).
Proof.
  assert (Hdec : (n = 1 \/ n = 2 \/ n = 3) \/ ~ (n = 1 \/ n = 2 \/ n = 3)) by lia.
  destruct Hdec as [Hn|Hn].
  - rewrite (main_in_choices n marked iterations Hn).
    destruct ((marked <? 0) || (marked >=? 2 ^ n)) eqn:Hc.
    + apply marked_check_spec in Hc.
      split; [split; [discriminate | contradiction]|].
      split; [split; [intros _; split; assumption | intros _; eexists; reflexivity]|].
      intros r Hr. discriminate Hr.
    + assert (Hm : 0 <= marked < 2 ^ n).
      { destruct (Z.ltb_spec marked 0), (Z.geb_spec marked (2 ^ n));
          simpl in Hc; try discriminate; lia. }
      split; [split; [discriminate | contradiction]|].
      split; [split; [intros [msg Hx]; discriminate Hx | intros [_ Hx]; contradiction]|].
      intros r Hr. injection Hr as <-. unfold run_grover_circuit.
      assert (Hit : exists it,
                 match iterations with
                 | Some i => Ok i
                 | None => recommend_iterations n
                 end = Ok it).
      { destruct iterations as [i|]; [exists i; reflexivity|].
        destruct (recommend_iterations_returns n) as (it & Hit & _); [lia|].
        exists it. exact Hit. }
      destruct Hit as [it Hit]. rewrite Hit. cbn [bind].
      destruct (build_grover_circuit_Z n marked it)
        as (o & d & bs & _ & _ & _ & _ & _ & Hg & _); [lia | exact Hm |].
      eexists. exact Hg.
  - rewrite (main_argparse n marked iterations Hn).
    split; [split; [intros _; exact Hn | reflexivity]|].
    split; [split; [intros [msg Hx]; discriminate Hx | intros [Hx _]; contradiction]|].
    intros r Hr. discriminate Hr.
Qed.

(** ** The recommended iteration count *)



(** X17.  For [0 <= n < 1024] the recommendation [r] never exceeds the square
    root of the number of basis states: [r * r <= 2^n]. *)
Theorem recommend_iterations_at_most_sqrt (n : Z) :
  0 <= n < 1024 ->
  exists r, recommend_iterations n = Ok r /\ r * r <= 2 ^ n.
Proof.
  intros [H0 H1].
  destruct (recommend_iterations_returns n H1) as (r & Hr & _ & _ & Hs & _).
  exists r. split; [exact Hr | exact (Hs H0)].
Qed.

Lemma recommend_iterations_at_most_sqrt_witness :
  0 <= 3 < 1024 /\
  exists r, recommend_iterations 3 = Ok r /\ r * r <= 2 ^ 3.
Proof.
  assert (H : 0 <= 3 < 1024) by lia.
  split; [exact H|]. exact (recommend_iterations_at_most_sqrt 3 H).
Defined.

Lemma main_never_raises_in_construction_witness :
  exists qc, main 2 1 None = Called (Ok qc)
  /\ main 2 4 None = SystemExit "Marked must be in [0, 3] for n=2".
Proof.
  destruct (main_never_raises_in_construction 2 1 None) as (_ & _ & H).
  destruct (H (run_grover_circuit 2 1 None)) as [qc Hqc]; [reflexivity|].
  exists qc. split; [|reflexivity].
  change (main 2 1 None) with (Called (run_grover_circuit 2 1 None)).
  now rewrite Hqc.
Defined.

Lemma builders_return_circuit_iff_witness :
  (exists qc, build_diffuser 2 = Ok qc) /\ ~ (exists qc, build_oracle 0 0 = Ok qc).
Proof.
  destruct (builders_return_circuit_iff 2 0) as [_ [_ Hd]].
  destruct (builders_return_circuit_iff 0 0) as [[Ho _] _].
  split; [apply Hd; lia|].
  intro H. apply Ho in H. destruct H as [H _]. lia.
Defined.

(** ** Different marked indices, different oracle states *)


(** X18.  Two different marked indices never give oracles that negate the same
    basis state: the search keeps all [2^n] marked indices apart. *)
Theorem oracle_states_distinct (n m1 m2 : Z) :
  1 <= n -> 0 <= m1 < 2 ^ n -> 0 <= m2 < 2 ^ n ->
  exists o1 o2 t1 t2,
    build_oracle n m1 = Ok o1 /\ build_oracle n m2 = Ok o2
    /\ (t1 < 2 ^ Z.to_nat n)%nat /\ (t2 < 2 ^ Z.to_nat n)%nat
    /\ run_circuit o1 (uniform (Z.to_nat n)) t1 = Copp (uniform (Z.to_nat n) t1)
    /\ run_circuit o2 (uniform (Z.to_nat n)) t2 = Copp (uniform (Z.to_nat n) t2)
    /\ (t1 = t2 -> m1 = m2).
Proof.
  intros Hn H1 H2.
  assert (HN : Z.of_nat (Z.to_nat n) = n) by (apply Z_of_nat_to_nat; exact Hn).
  destruct (build_oracle_run (Z.to_nat n) m1)
    as (o1 & bs1 & Ho1 & _ & _ & Hlt1 & Hb1 & Hr1); [lia | rewrite HN; exact H1 |].
  destruct (build_oracle_run (Z.to_nat n) m2)
    as (o2 & bs2 & Ho2 & _ & _ & Hlt2 & Hb2 & Hr2); [lia | rewrite HN; exact H2 |].
  rewrite HN in Ho1, Ho2.
  exists o1, o2, (state_of_bits bs1), (state_of_bits bs2).
  split; [exact Ho1|]. split; [exact Ho2|]. split; [exact Hlt1|]. split; [exact Hlt2|].
  split; [rewrite Hr1 by exact Hlt1; now rewrite Nat.eqb_refl|].
  split; [rewrite Hr2 by exact Hlt2; now rewrite Nat.eqb_refl|].
  intro Ht. apply Z.bits_inj'. intros j Hj.
  destruct (Z.lt_ge_cases j n) as [Hlt|Hge].
  - specialize (Hb1 (Z.to_nat (n - 1 - j))). specialize (Hb2 (Z.to_nat (n - 1 - j))).
    replace (Z.of_nat (Z.to_nat n - 1 - Z.to_nat (n - 1 - j))) with j in Hb1, Hb2 by lia.
    rewrite <- Hb1, <- Hb2 by lia. now rewrite Ht.
  - now rewrite (Ztestbit_above m1 n j), (Ztestbit_above m2 n j).
Qed.

Lemma oracle_states_distinct_witness :
  (1 <= 2 /\ 0 <= 1 < 2 ^ 2 /\ 0 <= 2 < 2 ^ 2) /\
  exists o1 o2, build_oracle 2 1 = Ok o1 /\ build_oracle 2 2 = Ok o2.
Proof.
  assert (H : 1 <= 2 /\ 0 <= 1 < 2 ^ 2 /\ 0 <= 2 < 2 ^ 2) by (simpl; lia).
  split; [exact H|]. destruct H as (H0 & H1 & H2).
  destruct (oracle_states_distinct 2 1 2 H0 H1 H2)
    as (o1 & o2 & t1 & t2 & Ho1 & Ho2 & _).
  exists o1, o2. split; [exact Ho1 | exact Ho2].
Defined.
